(** * Phlex: registration, product stores and the FORM write interface

    A shallow embedding of the parts of the Phlex sources that the
    specification talks about, with the specification's statements proved
    (or refuted) over it.

    - [Registrar]     phlex/core/registrar.hpp
    - [GraphProxy]    phlex/core/graph_proxy.hpp, phlex/core/registration_api.hpp
    - [ProductStore]  phlex/model/product_store.hpp
    - [Form]          form/form.cpp, mock_phlex/phlex_toy_core.hpp,
                      mock_phlex/phlex_toy_config.cpp
    - [Toy]           the [main] functions of the toy writer and reader
    - [RootTTree]     root_ttree_container.cpp
    - [Hashing]       phlex/utilities/hashing.hpp

    The first half of the file holds the embedding, the second half the
    statements about it. *)

From stdpp Require Import gmap strings list.

(** A decidable fact about concrete data, settled by evaluation. *)
Ltac by_evaluation := apply (bool_decide_unpack _); vm_compute; exact I.

(** * Part I: the embedding *)

(** ** The registrar: deferred construction of a node *)

Module Registrar.

(** [Ptr] is a smart pointer to a node type; all the registrar asks of the
    pointee is [full_name()]. *)
Class NodeLike (Node : Type) := full_name : Node → string.

(** Text of the entry [detail::add_to_error_messages] records for a name; the
    function is declared in registrar.hpp and defined elsewhere. *)
Class ErrorText := duplicate_message : string → string.

Section registrar.
Context {Node : Type} `{!NodeLike Node} `{!ErrorText}.

(** [std::function<Ptr(std::vector<std::string>, std::vector<std::string>)>] *)
Definition node_creator : Type := list string → list string → Node.

(** The data members of [registrar<Ptr>] apart from the two pointers. An
    empty [std::function] is [None]. *)
Record registrar := Build_registrar {
  creator_ : option node_creator;
  predicates_ : option (list string);
  output_products_ : list string
}.

(** What [nodes_] and [errors_] point to: the catalog and the error vector
    shared by all registrars of a graph. [creator_log] is a ghost field that
    records the arguments of every creator invocation, in order. *)
Record env := Build_env {
  nodes : gmap string Node;
  errors : list string;
  creator_log : list (list string * list string)
}.

(** [registrar(Nodes& nodes, std::vector<std::string>& errors)] *)
Definition new_registrar : registrar :=
  {| creator_ := None; predicates_ := None; output_products_ := [] |}.

Definition has_predicates (r : registrar) : bool :=
  match predicates_ r with Some _ => true | None => false end.

Definition set_creator (creator : node_creator) (r : registrar) : registrar :=
  {| creator_ := Some creator;
     predicates_ := predicates_ r;
     output_products_ := output_products_ r |}.

Definition set_predicates (predicates : option (list string)) (r : registrar)
  : registrar :=
  {| creator_ := creator_ r;
     predicates_ := predicates;
     output_products_ := output_products_ r |}.

(** [std::move(predicates_).value_or({})]: the value moved out of the
    optional, which stays engaged around a moved-from (empty) vector. *)
Definition release_predicates (r : registrar) : list string * registrar :=
  (default [] (predicates_ r),
   {| creator_ := creator_ r;
      predicates_ := (λ _, []) <$> predicates_ r;
      output_products_ := output_products_ r |}).

(** Modelled from the spec: phlex/utilities/simple_ptr_map.hpp is not under
    src; the catalog is "a map full_name -> node_ptr", here with the
    [try_emplace] of [std::map]: nothing happens when the key is present.
    The boolean is the [inserted] component of the result. *)
Definition try_emplace (name : string) (ptr : Node) (m : gmap string Node)
  : gmap string Node * bool :=
  match m !! name with
  | Some _ => (m, false)
  | None => (<[name := ptr]> m, true)
  end.

(** Modelled from the spec: [detail::add_to_error_messages] is only declared
    under src; a duplicate full name "is recorded in a shared error-vector",
    one entry for the duplicate. *)
Definition add_to_error_messages (errs : list string) (name : string)
  : list string :=
  errs ++ [duplicate_message name].

(** [registrar::create_node]. [None] is the failed [assert(creator_)]. *)
Definition create_node (output_product_labels : list string)
    (r : registrar) (e : env) : option (registrar * env) :=
  match creator_ r with
  | None => None
  | Some creator =>
      let '(predicates, r') := release_predicates r in
      let ptr := creator predicates output_product_labels in
      let name := full_name ptr in
      let '(nodes', inserted) := try_emplace name ptr (nodes e) in
      Some (r',
            {| nodes := nodes';
               errors := if inserted : bool then errors e
                         else add_to_error_messages (errors e) name;
               creator_log :=
                 creator_log e ++ [(predicates, output_product_labels)] |})
  end.

(** [registrar::set_output_products] *)
Definition set_output_products (output_products : list string)
    (r : registrar) (e : env) : option (registrar * env) :=
  match create_node output_products r e with
  | None => None
  | Some (r', e') =>
      Some ({| creator_ := None;
               predicates_ := predicates_ r';
               output_products_ := output_products_ r' |}, e')
  end.

(** [registrar::~registrar]: the environment the destructor leaves. *)
Definition destroy (r : registrar) (e : env) : option env :=
  match creator_ r with
  | Some _ => snd <$> create_node (output_products_ r) r e
  | None => Some e
  end.

(** A registration statement, as far as its registrar sees it: the creator
    set by [input_family], then optionally [when(...)], then optionally
    [output_products(...)], then the end of the statement. *)
Record statement := Build_statement {
  st_creator : node_creator;
  st_when : option (list string);
  st_output_products : option (list string)
}.

(** The registrar of a statement just before [output_products] or the
    semicolon. *)
Definition statement_registrar (s : statement) : registrar :=
  let r := set_creator (st_creator s) new_registrar in
  match st_when s with
  | Some ps => set_predicates (Some ps) r
  | None => r
  end.

Definition run_statement (s : statement) (e : env) : option env :=
  let r := statement_registrar s in
  match st_output_products s with
  | Some ops =>
      match set_output_products ops r e with
      | Some (r', e') => destroy r' e'
      | None => None
      end
  | None => destroy r e
  end.

(** The arguments the creator of a statement is to see, and the node it
    declares. *)
Definition statement_arguments (s : statement) : list string * list string :=
  (default [] (st_when s), default [] (st_output_products s)).

Definition declared_node (s : statement) : Node :=
  st_creator s (statement_arguments s).1 (statement_arguments s).2.

End registrar.

Arguments registrar : clear implicits.
Arguments env : clear implicits.
Arguments statement : clear implicits.
Arguments node_creator : clear implicits.

(** *** Several statements *)

Section statements.
Context {Node : Type} `{!NodeLike Node} `{!ErrorText}.

(** The registration statements of a program, one after the other. *)
Fixpoint run_statements (ss : list (statement Node)) (e : env Node)
  : option (env Node) :=
  match ss with
  | [] => Some e
  | s :: ss' => run_statement s e ≫= run_statements ss'
  end.

(** The full name under which a statement registers its node. *)
Definition statement_name (s : statement Node) : string :=
  full_name (declared_node s).

End statements.

End Registrar.

(** ** The graph proxy and the fold registration API *)

Module GraphProxy.
Import Registrar.

(** phlex/model/algorithm_name.hpp *)
Inductive specified_fields := neither | either | both.

Record algorithm_name := Build_algorithm_name {
  plugin_ : string;
  algorithm_ : string;
  fields_ : specified_fields
}.

(** Modelled from the spec: [algorithm_name::full] is only declared under src;
    "Full rendering is plugin:algorithm". *)
Definition full (n : algorithm_name) : string :=
  plugin_ n +:+ ":" +:+ algorithm_ n.

(** Modelled from the spec: phlex/concurrency.hpp is not under src. A
    concurrency is the number of permits of the node ([value]); "serial is a
    single-permit node". *)
Record concurrency := Build_concurrency { value : N }.

(** Modelled from the spec: [concurrency::serial] is "a single-permit
    node". *)
Definition serial : concurrency := {| value := 1 |}.

(** Modelled from the spec: a specified label is "(name, qualifier?)". *)
Record specified_label := Build_specified_label {
  label_name : string;
  label_qualifier : option string
}.

(** [detail::make_algorithm_name(config, name)] is not under src; it is a
    parameter of the model. A null [configuration const*] is [None]. *)
Class AlgorithmNaming (configuration : Type) :=
  make_algorithm_name : option configuration → string → algorithm_name.

Section graph_proxy.
Context {configuration T F Init : Type} `{!AlgorithmNaming configuration}.

(** [AlgorithmBits]: the user's function with the object it is bound to. *)
Definition algorithm_bits : Type := option T * F.

(** The arguments [fold_api]'s creator hands to the constructor of
    [fold_node<AlgorithmBits, InitTuple>], in their order, the
    [tbb::flow::graph&] apart. *)
Record fold_node := Build_fold_node {
  fn_name : algorithm_name;
  fn_concurrency : N;
  fn_predicates : list string;
  fn_algorithm : algorithm_bits;
  fn_init : Init;
  fn_input_labels : list specified_label;
  fn_output_products : list string;
  fn_partition : string
}.

#[export] Instance fold_node_like : NodeLike fold_node := λ n, full (fn_name n).

(** The data members of [fold_api<AlgorithmBits, InitArgs...>]. *)
Record fold_api := Build_fold_api {
  fa_config_ : option configuration;
  fa_name_ : algorithm_name;
  fa_alg_ : algorithm_bits;
  fa_concurrency_ : concurrency;
  fa_partition_ : string;
  fa_init_ : Init;
  fa_registrar_ : registrar fold_node
}.

(** The constructor of [fold_api]. *)
Definition make_fold_api (config : option configuration) (name : string)
    (alg : algorithm_bits) (c : concurrency) (partition : string) (init : Init)
  : fold_api :=
  {| fa_config_ := config;
     fa_name_ := make_algorithm_name config name;
     fa_alg_ := alg;
     fa_concurrency_ := c;
     fa_partition_ := partition;
     fa_init_ := init;
     fa_registrar_ := new_registrar |}.

(** [fold_api::input_family]: the registrar handed on to
    [upstream_predicates], its creator set. *)
Definition input_family (api : fold_api) (input_args : list specified_label)
  : registrar fold_node :=
  set_creator
    (λ predicates output_products,
       {| fn_name := fa_name_ api;
          fn_concurrency := value (fa_concurrency_ api);
          fn_predicates := predicates;
          fn_algorithm := fa_alg_ api;
          fn_init := fa_init_ api;
          fn_input_labels := input_args;
          fn_output_products := output_products;
          fn_partition := fa_partition_ api |})
    (fa_registrar_ api).

(** The data members of [graph_proxy<T>] and of [glue<T>], the references to
    the graph, the catalog and the error vector apart. *)
Record graph_proxy := Build_graph_proxy {
  gp_config_ : option configuration;
  gp_bound_obj_ : option T
}.

Record glue := Build_glue {
  gl_bound_obj_ : option T;
  gl_config_ : option configuration
}.

Definition create_glue (gp : graph_proxy) (use_bound_object : bool) : glue :=
  {| gl_bound_obj_ := if use_bound_object then gp_bound_obj_ gp else None;
     gl_config_ := gp_config_ gp |}.

(** Modelled from the spec: [glue<T>::fold] (phlex/core/glue.hpp) is not under
    src. The glue "returns intermediate builders that accept
    input_family(labels...)": for a fold, the [fold_api] built from the
    arguments it is given and the bound object. *)
Definition glue_fold (g : glue) (name : string) (f : F) (c : concurrency)
    (partition : string) (init_args : Init) : fold_api :=
  make_fold_api (gl_config_ g) name (gl_bound_obj_ g, f) c partition init_args.

(** [graph_proxy::fold]. An argument the caller leaves to its default is
    [None]. *)
Definition graph_proxy_fold (gp : graph_proxy) (name : string) (f : F)
    (c : option concurrency) (partition : option string) (init_args : Init)
  : fold_api :=
  glue_fold (create_glue gp true) name f
    (default serial c) (default "job" partition) init_args.

(** The statement [proxy.fold(name, f, ...).input_family(labels...)],
    continued by [when] and [output_products] or not. *)
Definition fold_statement (gp : graph_proxy) (name : string) (f : F)
    (c : option concurrency) (partition : option string)
    (init_args : Init) (input_args : list specified_label)
    (when : option (list string)) (output_products : option (list string))
  : option (statement fold_node) :=
  creator ← creator_ (input_family
                         (graph_proxy_fold gp name f c partition init_args)
                         input_args);
  Some {| st_creator := creator;
          st_when := when;
          st_output_products := output_products |}.

End graph_proxy.

Arguments fold_node : clear implicits.
Arguments fold_api : clear implicits.
Arguments graph_proxy : clear implicits.
Arguments glue : clear implicits.

(** A small instance for the examples: no configuration, no bound object,
    names qualified by a plugin called "demo", folds over integers. *)
Definition demo_naming : AlgorithmNaming unit :=
  λ _ name, {| plugin_ := "demo"; algorithm_ := name; fields_ := both |}.

Definition demo_error_text : ErrorText := λ name, "duplicate node " +:+ name.

Definition demo_proxy : graph_proxy unit unit :=
  {| gp_config_ := None; gp_bound_obj_ := None |}.

Definition demo_env : env (fold_node unit unit Z) :=
  {| nodes := ∅; errors := []; creator_log := [] |}.

(** [demo_proxy.fold("sum", f).input_family("x")], to be followed by
    [.output_products("total")] or by nothing. *)
Definition demo_registrar : registrar (fold_node unit unit Z) :=
  input_family
    (graph_proxy_fold (AlgorithmNaming0 := demo_naming)
       demo_proxy "sum" tt None None 0%Z)
    [Build_specified_label "x" None].

Definition demo_fold (output_products : option (list string))
  : option (statement (fold_node unit unit Z)) :=
  fold_statement (AlgorithmNaming0 := demo_naming) demo_proxy "sum" tt None None
    0%Z [Build_specified_label "x" None] None output_products.

(** The catalog after
    [demo_proxy.fold("sum", f).input_family("x").output_products("total")]. *)
Definition demo_taken_env : env (fold_node unit unit Z) :=
  default demo_env
    (demo_fold (Some ["total"])
       ≫= λ s, run_statement (H := demo_error_text) s demo_env).

(** *** The registration API of the other node kinds *)

Section registration_api.
Context {configuration AlgorithmBits : Type}.
Context `{!AlgorithmNaming configuration}.

(** The arguments [registration_api]'s creator hands to the constructor of
    [HOF<AlgorithmBits>], in their order, the [tbb::flow::graph&] apart. The
    output products are an argument of the constructor only for a node type
    that declares some. *)
Record hof_node := Build_hof_node {
  hn_name : algorithm_name;
  hn_concurrency : N;
  hn_predicates : list string;
  hn_algorithm : AlgorithmBits;
  hn_input_labels : list specified_label;
  hn_output_products : option (list string)
}.

(** The data members of [registration_api<HOF, AlgorithmBits>]. *)
Record registration_api := Build_registration_api {
  ra_config_ : option configuration;
  ra_name_ : algorithm_name;
  ra_alg_ : AlgorithmBits;
  ra_concurrency_ : concurrency;
  ra_registrar_ : registrar hof_node
}.

(** [make_registration], which calls the constructor of
    [registration_api]. *)
Definition make_registration (config : option configuration) (name : string)
    (alg : AlgorithmBits) (c : concurrency) : registration_api :=
  {| ra_config_ := config;
     ra_name_ := make_algorithm_name config name;
     ra_alg_ := alg;
     ra_concurrency_ := c;
     ra_registrar_ := new_registrar |}.

(** [registration_api::input_family]; [M] is
    [hof_type::number_output_products], and the two branches are those of
    [if constexpr (M == 0ull)]. *)
Definition registration_input_family (M : N) (api : registration_api)
    (input_args : list specified_label) : registrar hof_node :=
  if decide (M = 0%N)
  then set_creator
         (λ predicates _,
            {| hn_name := ra_name_ api;
               hn_concurrency := value (ra_concurrency_ api);
               hn_predicates := predicates;
               hn_algorithm := ra_alg_ api;
               hn_input_labels := input_args;
               hn_output_products := None |})
         (ra_registrar_ api)
  else set_creator
         (λ predicates output_products,
            {| hn_name := ra_name_ api;
               hn_concurrency := value (ra_concurrency_ api);
               hn_predicates := predicates;
               hn_algorithm := ra_alg_ api;
               hn_input_labels := input_args;
               hn_output_products := Some output_products |})
         (ra_registrar_ api).

End registration_api.

Arguments hof_node : clear implicits.
Arguments registration_api : clear implicits.

End GraphProxy.

(** ** Product stores *)

Module ProductStore.

(** Modelled from the spec: the enumeration [stage] is declared in a header
    that is not under src; a store has "a processing stage ∈ {process,
    flush}". *)
Inductive stage := process | flush.

(** Modelled from the spec: phlex/model/level_id.hpp is not under src. A level
    identifier is "an immutable sequence of (level_name, level_number)
    segments describing a path in the hierarchy", the root first; the
    identifier of the base store is "(job,0)". *)
Definition level_id : Type := list (string * N).

Definition base_id : level_id := [("job", 0%N)].

Definition level_id_make_child (id : level_id) (level_number : N)
    (level_name : string) : level_id :=
  id ++ [(level_name, level_number)].

Definition level_id_level_name (id : level_id) : string :=
  from_option fst EmptyString (last id).

(** A [product_store_ptr] is the address of a store object; [None] is the
    null pointer. *)
Abbreviation address := nat.

Section store.
Context {product : Type}.

(** The data members of [product_store]. [products] is modelled from the
    spec, as "a map product_name -> product". *)
Record product_store := Build_product_store {
  parent_ : option address;
  products_ : gmap string product;
  id_ : level_id;
  source_ : string;
  stage_ : stage
}.

(** The store objects that have been created, each at its address. A store
    holds its parent by pointer, so that what is later added to the parent
    is seen from the child. *)
Local Abbreviation heap := (list product_store).

Definition alloc (s : product_store) (h : heap) : address * heap :=
  (length h, h ++ [s]).

(** The well-formed heaps: a parent is created before its children. *)
Definition well_formed (h : heap) : Prop :=
  ∀ a s p, h !! a = Some s → parent_ s = Some p → p < a.

(** Modelled from the spec: [level_name()] is only declared under src; the
    level name of a store is that of the last segment of its level
    identifier. *)
Definition level_name (s : product_store) : string :=
  level_id_level_name (id_ s).

(** Modelled from the spec: [is_flush()] is only declared under src;
    "is_flush() is true iff stage = flush". *)
Definition is_flush (s : product_store) : bool :=
  match stage_ s with flush => true | process => false end.

(** Modelled from the spec: [contains_product(key)] is only declared under
    src; a store contains the products of its map. *)
Definition contains_product (s : product_store) (key : string) : bool :=
  bool_decide (is_Some (products_ s !! key)).

(** Modelled from the spec: [parent()] is only declared under src; it hands
    out the back-reference to the parent. *)
Definition parent (h : heap) (a : address) : option address :=
  h !! a ≫= parent_.

(** Modelled from the spec: [base()] is only declared under src; "base() ->
    root store, stage=process, id = (job,0)". These are the defaults of the
    constructor [product_store(parent = nullptr, id = level_id::base_ptr(),
    source = {}, processing_stage = stage::process, new_products = {})]. *)
Definition base (h : heap) : address * heap :=
  alloc {| parent_ := None; products_ := ∅; id_ := base_id;
           source_ := EmptyString; stage_ := process |} h.

(** Modelled from the spec: "make_child(level_number, level_name, source,
    products) -> child store of the given parent, stage=process, with new
    products embedded". [None] when [a] is no store of the heap. *)
Definition make_child (a : address) (new_level_number : N)
    (new_level_name source : string) (new_products : gmap string product)
    (h : heap) : option (address * heap) :=
  s ← h !! a;
  Some (alloc {| parent_ := Some a;
                 products_ := new_products;
                 id_ := level_id_make_child (id_ s) new_level_number new_level_name;
                 source_ := source;
                 stage_ := process |} h).

(** Modelled from the spec: "make_child(level_number, level_name, source,
    stage=process) -> child without products". *)
Definition make_child_stage (a : address) (new_level_number : N)
    (new_level_name source : string) (st : stage)
    (h : heap) : option (address * heap) :=
  s ← h !! a;
  Some (alloc {| parent_ := Some a;
                 products_ := ∅;
                 id_ := level_id_make_child (id_ s) new_level_number new_level_name;
                 source_ := source;
                 stage_ := st |} h).

(** Modelled from the spec: "make_continuation(source, products) -> same
    level as parent, new products, same id". The stage is the constructor's
    default, [process]. *)
Definition make_continuation (a : address) (source : string)
    (new_products : gmap string product)
    (h : heap) : option (address * heap) :=
  s ← h !! a;
  Some (alloc {| parent_ := parent_ s;
                 products_ := new_products;
                 id_ := id_ s;
                 source_ := source;
                 stage_ := process |} h).

(** Modelled from the spec: "make_flush() -> sibling with stage=flush, empty
    products". The spec leaves the source tag open; it is the constructor's
    default here. *)
Definition make_flush (a : address) (h : heap) : option (address * heap) :=
  s ← h !! a;
  Some (alloc {| parent_ := parent_ s;
                 products_ := ∅;
                 id_ := id_ s;
                 source_ := EmptyString;
                 stage_ := flush |} h).

(** Modelled from the spec: [products::add] is not under src. "Product ops
    are append-only per key; re-adding the same key is a logic error"
    ([None]). *)
Definition products_add (key : string) (t : product)
    (ps : gmap string product) : option (gmap string product) :=
  match ps !! key with
  | Some _ => None
  | None => Some (<[key := t]> ps)
  end.

(** [product_store::add_product(key, t)]: [products_.add(key, std::move(t))]
    on the store object at [a], whatever its stage. *)
Definition add_product (a : address) (key : string) (t : product)
    (h : heap) : option heap :=
  s ← h !! a;
  ps ← products_add key t (products_ s);
  Some (<[a := {| parent_ := parent_ s; products_ := ps; id_ := id_ s;
                  source_ := source_ s; stage_ := stage_ s |}]> h).

(** The chain of stores from [a] up to the root, [a] first. Each round
    follows one parent pointer; on a well-formed heap [length h] rounds reach
    the root. *)
Fixpoint lineage_from (fuel : nat) (h : heap) (a : address) : list address :=
  match fuel with
  | 0 => []
  | S fuel' =>
      match h !! a with
      | None => []
      | Some s =>
          a :: match parent_ s with
               | Some p => lineage_from fuel' h p
               | None => []
               end
      end
  end.

Definition lineage (h : heap) (a : address) : list address :=
  lineage_from (length h) h a.

(** The ancestors of a store, the nearest first; [b] is a descendant of [a]
    when [a] is one of the ancestors of [b]. *)
Definition ancestors (h : heap) (a : address) : list address :=
  tail (lineage h a).

(** Modelled from the spec: "store_for_product(name) -> walks up ancestors
    until a store owning name is found; returns null if none", where a
    product "is visible to a reader at level L if and only if it is stored at
    L or at an ancestor". The result is [Some None] for the null pointer and
    [None] when the rounds run out or a pointer leaves the heap. *)
Fixpoint store_for_product_loop (fuel : nat) (h : heap) (product_name : string)
    (store : option address) : option (option address) :=
  match store with
  | None => Some None
  | Some a =>
      match fuel with
      | 0 => None
      | S fuel' =>
          s ← h !! a;
          if contains_product s product_name then Some (Some a)
          else store_for_product_loop fuel' h product_name (parent_ s)
      end
  end.

Definition store_for_product (h : heap) (product_name : string) (a : address)
  : option (option address) :=
  store_for_product_loop (length h) h product_name (Some a).

(** Modelled from the spec: [more_derived] is only declared under src. It
    "selects, among two stores, the one deeper in the hierarchy (descendant
    wins; if incomparable, the second)". *)
Definition more_derived (h : heap) (a b : address) : address :=
  if bool_decide (b ∈ ancestors h a) then a else b.

(** [get_most_derived<I>(tup, element)], one round for each instantiation of
    the template. *)
Fixpoint get_most_derived (fuel I : nat) (h : heap) (tup : list address)
    (element : address) : option address :=
  match fuel with
  | 0 => None
  | S fuel' =>
      tup_I ← tup !! I;
      if bool_decide (I = length tup - 1)
      then Some (more_derived h element tup_I)
      else get_most_derived fuel' (S I) h tup (more_derived h element tup_I)
  end.

(** [most_derived(tup)]; the empty tuple is what [static_assert(N > 0ull)]
    refuses. *)
Definition most_derived (h : heap) (tup : list address) : option address :=
  match tup with
  | [] => None
  | [tup_0] => Some tup_0
  | tup_0 :: _ => get_most_derived (length tup) 1 h tup tup_0
  end.

(** The public operations that create or change stores. *)
Inductive call :=
  | call_base
  | call_make_child (a : address) (level_number : N) (level_name source : string)
      (new_products : gmap string product)
  | call_make_child_stage (a : address) (level_number : N)
      (level_name source : string) (st : stage)
  | call_make_continuation (a : address) (source : string)
      (new_products : gmap string product)
  | call_make_flush (a : address)
  | call_add_product (a : address) (key : string) (t : product).

Definition step (c : call) (h : heap) : option heap :=
  match c with
  | call_base => Some (base h).2
  | call_make_child a n name src ps => snd <$> make_child a n name src ps h
  | call_make_child_stage a n name src st =>
      snd <$> make_child_stage a n name src st h
  | call_make_continuation a src ps => snd <$> make_continuation a src ps h
  | call_make_flush a => snd <$> make_flush a h
  | call_add_product a key t => add_product a key t h
  end.

Fixpoint run (cs : list call) (h : heap) : option heap :=
  match cs with
  | [] => Some h
  | c :: cs' => step c h ≫= run cs'
  end.

(** The heaps a program can build with these operations. *)
Definition reachable (h : heap) : Prop := ∃ cs, run cs [] = Some h.

(** The calls that create a store. *)
Definition creates_store (c : call) : bool :=
  match c with call_add_product _ _ _ => false | _ => true end.

(** "flush stores carry no products", of every store of a heap. *)
Definition flush_stores_empty (h : heap) : Prop :=
  ∀ a s, h !! a = Some s → is_flush s = true → products_ s = ∅.

End store.

Arguments product_store : clear implicits.
Arguments call : clear implicits.

(** A small hierarchy with integer products, for the examples: the job at
    address 0, run 1 at address 1 with an event (address 2) that carries a
    product [x], and run 2 at address 3. *)
Definition sample_calls : list (call Z) :=
  [ call_base;
    call_make_child 0 1 "run" "source" {["n" := 10%Z]};
    call_make_child 1 1 "event" "source" {["x" := 3%Z]};
    call_make_child 0 2 "run" "source" ∅ ].

Definition sample_heap : list (product_store Z) :=
  default [] (run sample_calls []).

(** The job, a flush store made off it, and a product added to that store. *)
Definition flush_calls : list (call Z) :=
  [ call_base; call_make_flush 0; call_add_product 1 "x" 7%Z ].

Definition flush_heap : list (product_store Z) :=
  default [] (run flush_calls []).

End ProductStore.

(** ** FORM: the write interface towards the persistence layer *)

Module Form.

(** mock_phlex/phlex_toy_core.hpp. A [std::type_index] and a [void const*]
    are opaque keys here. *)
Definition type_index : Type := N.
Definition pointer : Type := N.

Record product_base := Build_product_base {
  label : string;
  id : string;
  data : pointer;
  type : type_index
}.

(** mock_phlex/phlex_toy_config.hpp *)
Record PersistenceItem := Build_PersistenceItem {
  product_name : string;
  file_name : string;
  technology : Z
}.

Definition table_t : Type := list (string * string).
Definition map_t : Type := gmap Z (gmap string table_t).

Record parse_config := Build_parse_config {
  m_items : list PersistenceItem;
  m_file_settings : map_t;
  m_container_settings : map_t
}.

Definition empty_config : parse_config :=
  {| m_items := []; m_file_settings := ∅; m_container_settings := ∅ |}.

Definition addItem (product file : string) (tech : Z) (c : parse_config)
  : parse_config :=
  {| m_items := m_items c ++ [Build_PersistenceItem product file tech];
     m_file_settings := m_file_settings c;
     m_container_settings := m_container_settings c |}.

Definition findItem (product : string) (c : parse_config)
  : option PersistenceItem :=
  list_find (λ item, product_name item = product) (m_items c) ≫= λ p, Some p.2.

(** [m[tech][name].emplace_back(key, value)], [operator[]] creating what is
    missing on its way. *)
Definition add_setting (tech : Z) (name key value : string) (m : map_t) : map_t :=
  let inner := default ∅ (m !! tech) in
  let table := default [] (inner !! name) in
  <[tech := <[name := table ++ [(key, value)]]> inner]> m.

Definition addFileSetting (tech : Z) (fileName key value : string)
    (c : parse_config) : parse_config :=
  {| m_items := m_items c;
     m_file_settings := add_setting tech fileName key value (m_file_settings c);
     m_container_settings := m_container_settings c |}.

Definition addContainerSetting (tech : Z) (containerName key value : string)
    (c : parse_config) : parse_config :=
  {| m_items := m_items c;
     m_file_settings := m_file_settings c;
     m_container_settings :=
       add_setting tech containerName key value (m_container_settings c) |}.

(** The persistence layer sits behind the abstract [IPersistence]; what
    [form_interface] does to it is the sequence of calls it makes. A call is
    taken to return. *)
Inductive persistence_call :=
  | configureOutputItems (items : list PersistenceItem)
  | configureTechSettings (file_settings container_settings : map_t)
  | createContainers (creator : string) (products : gmap string string)
  | registerWrite (creator label : string) (data : pointer) (type : string)
  | commitOutput (creator id : string)
  | read_call (creator label id : string) (type : string).

(** The data members of [form_interface]: [m_pers] as the calls made on it so
    far, [m_type_map] as the [names] map it points to. *)
Record form_interface := Build_form_interface {
  m_pers : list persistence_call;
  m_type_map : gmap type_index string;
  m_product_to_config : gmap string PersistenceItem
}.

(** [std::map::insert] and [emplace]: an entry that is there stays. *)
Definition insert_new {V} (k : string) (v : V) (m : gmap string V)
  : gmap string V :=
  match m !! k with
  | Some _ => m
  | None => <[k := v]> m
  end.

(** The constructor of [form_interface]. *)
Definition make_form_interface (tm : gmap type_index string)
    (config : parse_config) : form_interface :=
  {| m_pers := [configureOutputItems (m_items config);
                configureTechSettings (m_file_settings config)
                                      (m_container_settings config)];
     m_type_map := tm;
     m_product_to_config :=
       foldl (λ m item, insert_new (product_name item) item m) ∅ (m_items config) |}.

(** A member function of [form_interface] either throws a
    [std::runtime_error] with a message or returns, and leaves a state. *)
Definition action (A : Type) : Type :=
  form_interface → (string + A) * form_interface.

#[export] Instance action_ret : MRet action := λ A x st, (inr x, st).

#[export] Instance action_bind : MBind action := λ A B f a st,
  match a st with
  | (inl msg, st') => (inl msg, st')
  | (inr x, st') => f x st'
  end.

Definition throw {A} (msg : string) : action A := λ st, (inl msg, st).

(** [m_product_to_config.find(label)] *)
Definition find_config (l : string) : action (option PersistenceItem) :=
  λ st, (inr (m_product_to_config st !! l), st).

(** [m_type_map->names[t]]: [operator[]] puts an empty name under a key that
    is missing. *)
Definition names_at (t : type_index) : action string := λ st,
  match m_type_map st !! t with
  | Some name => (inr name, st)
  | None => (inr EmptyString,
             {| m_pers := m_pers st;
                m_type_map := <[t := EmptyString]> (m_type_map st);
                m_product_to_config := m_product_to_config st |})
  end.

(** A call on [m_pers]. *)
Definition call (c : persistence_call) : action unit := λ st,
  (inr tt,
   {| m_pers := m_pers st ++ [c];
      m_type_map := m_type_map st;
      m_product_to_config := m_product_to_config st |}).

(** [for (auto const& pb : batch) ...] *)
Fixpoint for_each {A} (body : A → action unit) (l : list A) : action unit :=
  match l with
  | [] => mret tt
  | x :: l' => body x ≫= λ _, for_each body l'
  end.

(** The first loop of the batch [write]: the [products] map being filled. *)
Fixpoint collect_products (batch : list product_base)
    (products : gmap string string) : action (gmap string string) :=
  match batch with
  | [] => mret products
  | pb :: batch' =>
      ty ← names_at (type pb);
      collect_products batch' (insert_new (label pb) ty products)
  end.

Definition no_configuration (l : string) : string :=
  "No configuration found for product: " +:+ l.

(** [form_interface::write(creator, pb)] *)
Definition write (creator : string) (pb : product_base) : action unit :=
  it ← find_config (label pb);
  match it with
  | None => throw (no_configuration (label pb))
  | Some _ =>
      ty ← names_at (type pb);
      _ ← call (createContainers creator {[label pb := ty]});
      _ ← call (registerWrite creator (label pb) (data pb) ty);
      call (commitOutput creator (id pb))
  end.

(** [form_interface::write(creator, batch)] *)
Definition write_batch (creator : string) (batch : list product_base)
  : action unit :=
  match batch with
  | [] => mret tt
  | batch_0 :: _ =>
      it ← find_config (label batch_0);
      match it with
      | None => throw (no_configuration (label batch_0))
      | Some _ =>
          products ← collect_products batch ∅;
          _ ← call (createContainers creator products);
          _ ← for_each (λ pb,
                 ty ← names_at (type pb);
                 call (registerWrite creator (label pb) (data pb) ty)) batch;
          call (commitOutput creator (id batch_0))
      end
  end.

(** [form_interface::read(creator, pb)] *)
Definition read (creator : string) (pb : product_base) : action unit :=
  it ← find_config (label pb);
  match it with
  | None => throw (no_configuration (label pb))
  | Some _ =>
      ty ← names_at (type pb);
      call (read_call creator (label pb) (id pb) ty)
  end.

(** The name [names[type]] yields for a product, read off a state. *)
Definition type_name (st : form_interface) (pb : product_base) : string :=
  default EmptyString (m_type_map st !! type pb).

(** The [registerWrite] calls of the second loop of the batch [write], for a
    batch written from the state [st]. *)
Definition register_writes (creator : string) (st : form_interface)
    (batch : list product_base) : list persistence_call :=
  (λ pb, registerWrite creator (label pb) (data pb) (type_name st pb)) <$> batch.

(** Two states that differ at most in empty names put under missing keys. *)
Definition same_but_names (st st' : form_interface) : Prop :=
  m_pers st' = m_pers st ∧
  m_product_to_config st' = m_product_to_config st ∧
  ∀ pb, type_name st' pb = type_name st pb.

Definition is_registerWrite (c : persistence_call) : bool :=
  match c with registerWrite _ _ _ _ => true | _ => false end.

Definition is_commitOutput (c : persistence_call) : bool :=
  match c with commitOutput _ _ => true | _ => false end.

(** The configuration and the batch of one segment of the toy writer. The
    technology code stands for [form::technology::ROOT_TTREE], whose value
    plays no role. *)
Definition toy_config : parse_config :=
  addItem "trackStartX" "toy.root" 1
    (addItem "trackStartPoints" "toy.root" 1
       (addItem "trackNumberHits" "toy.root" 1
          (addItem "trackStart" "toy.root" 1 empty_config))).

Definition toy_form : form_interface :=
  make_form_interface
    (<[3%N := "std::vector<TrackStart>"]>
       (<[2%N := "std::vector<int>"]> {[1%N := "std::vector<float>"]}))
    toy_config.

Definition toy_batch : list product_base :=
  [ {| label := "trackStart"; id := "[EVENT=00000000;SEG=00000000]";
       data := 100%N; type := 1%N |};
    {| label := "trackNumberHits"; id := "[EVENT=00000000;SEG=00000000]";
       data := 200%N; type := 2%N |};
    {| label := "trackStartPoints"; id := "[EVENT=00000000;SEG=00000000]";
       data := 300%N; type := 3%N |} ].

(** *** The interface as a whole, and what it leaves *)

(** [names[t]] on the map itself: an entry that is there stays, a missing one
    is created with the empty name. *)
Definition name_missing (t : type_index) (tm : gmap type_index string)
  : gmap type_index string :=
  match tm !! t with
  | Some _ => tm
  | None => <[t := EmptyString]> tm
  end.

(** The public member functions of [form_interface], as requests. *)
Inductive request :=
  | write_request (creator : string) (pb : product_base)
  | write_batch_request (creator : string) (batch : list product_base)
  | read_request (creator : string) (pb : product_base).

Definition perform (r : request) : action unit :=
  match r with
  | write_request creator pb => write creator pb
  | write_batch_request creator batch => write_batch creator batch
  | read_request creator pb => read creator pb
  end.

(** The products a request hands over. *)
Definition products_of (r : request) : list product_base :=
  match r with
  | write_request _ pb | read_request _ pb => [pb]
  | write_batch_request _ batch => batch
  end.

Definition is_createContainers (c : persistence_call) : bool :=
  match c with createContainers _ _ => true | _ => false end.

(** A state with another type map. *)
Definition with_names (st : form_interface) (tm : gmap type_index string)
  : form_interface :=
  {| m_pers := m_pers st; m_type_map := tm;
     m_product_to_config := m_product_to_config st |}.

(** The calls of [write] on one product after the other, from the state
    [st]. *)
Definition single_writes (creator : string) (st : form_interface)
    (batch : list product_base) : list persistence_call :=
  batch ≫= λ pb,
    [ createContainers creator {[label pb := type_name st pb]};
      registerWrite creator (label pb) (data pb) (type_name st pb);
      commitOutput creator (id pb) ].

(** The calls of the constructor, for a configuration. *)
Definition constructor_calls (config : parse_config) : list persistence_call :=
  [ configureOutputItems (m_items config);
    configureTechSettings (m_file_settings config) (m_container_settings config) ].

(** What a sequence of calls registers for writing, commits, and reads. *)
Definition registered (calls : list persistence_call)
  : list (string * string * string) :=
  omap (λ c, match c with
             | registerWrite creator label _ type => Some (creator, label, type)
             | _ => None
             end) calls.

Definition committed (calls : list persistence_call) : list (string * string) :=
  omap (λ c, match c with
             | commitOutput creator id => Some (creator, id)
             | _ => None
             end) calls.

Definition requested (calls : list persistence_call)
  : list (string * string * string * string) :=
  omap (λ c, match c with
             | read_call creator label id type => Some (creator, label, id, type)
             | _ => None
             end) calls.

(** *** Filling a configuration *)

(** The table [m[tech][name]] of a settings map, empty when there is none. *)
Definition setting_table (tech : Z) (name : string) (m : map_t) : table_t :=
  default [] (m !! tech ≫= λ inner, inner !! name).

(** The calls that fill a [parse_config]. *)
Inductive config_call :=
  | add_item (product file : string) (tech : Z)
  | add_file_setting (tech : Z) (fileName key value : string)
  | add_container_setting (tech : Z) (containerName key value : string).

Definition configure_step (c : parse_config) (call : config_call)
  : parse_config :=
  match call with
  | add_item product file tech => addItem product file tech c
  | add_file_setting tech name key value => addFileSetting tech name key value c
  | add_container_setting tech name key value =>
      addContainerSetting tech name key value c
  end.

Definition configure (calls : list config_call) (c : parse_config)
  : parse_config :=
  foldl configure_step c calls.

(** What a sequence of calls asks for: the items, and the settings of one
    file or container, in the order of the calls. *)
Definition items_of (calls : list config_call) : list PersistenceItem :=
  omap (λ call, match call with
                | add_item product file tech =>
                    Some (Build_PersistenceItem product file tech)
                | _ => None
                end) calls.

Definition file_settings_of (tech : Z) (name : string)
    (calls : list config_call) : table_t :=
  omap (λ call, match call with
                | add_file_setting t n key value =>
                    if decide (t = tech ∧ n = name) then Some (key, value)
                    else None
                | _ => None
                end) calls.

Definition container_settings_of (tech : Z) (name : string)
    (calls : list config_call) : table_t :=
  omap (λ call, match call with
                | add_container_setting t n key value =>
                    if decide (t = tech ∧ n = name) then Some (key, value)
                    else None
                | _ => None
                end) calls.

End Form.

(** ** The toy writer and reader: the programs that drive FORM

    The two [main] functions, as far as FORM sees them: the configuration
    they build, the names they put into the type map they share with the
    interface, and the requests they make. What they print, and the contents
    of the vectors the products point to, play no role for FORM and are left
    out. *)

Module Toy.
Import Form.

(** [snprintf] with "%08X" on a number that is not negative and fits eight
    places: its digits to the base 16, in capitals, with zeros in front. *)
Definition hex_digit (d : N) : string :=
  match d with
  | 0 => "0" | 1 => "1" | 2 => "2" | 3 => "3" | 4 => "4" | 5 => "5" | 6 => "6"
  | 7 => "7" | 8 => "8" | 9 => "9" | 10 => "A" | 11 => "B" | 12 => "C"
  | 13 => "D" | 14 => "E" | _ => "F"
  end%N.

Fixpoint hex_digits (places : nat) (n : N) (acc : string) : string :=
  match places with
  | 0 => acc
  | S places' => hex_digits places' (n / 16)%N (hex_digit (n mod 16)%N +:+ acc)
  end.

Definition hex8 (n : N) : string := hex_digits 8 n EmptyString.

(** [type_map->names[t] = name] in [main], on the map the interface shares. *)
Definition set_name (t : type_index) (name : string) : action unit := λ st,
  (inr tt,
   {| m_pers := m_pers st;
      m_type_map := <[t := name]> (m_type_map st);
      m_product_to_config := m_product_to_config st |}).

(** The [std::type_index] of [std::vector<float>], [std::vector<int>] and
    [std::vector<TrackStart>]: three different keys. *)
Definition vector_float : type_index := 1%N.
Definition vector_int : type_index := 2%N.
Definition vector_TrackStart : type_index := 3%N.

Definition NUMBER_EVENT : nat := 4.
Definition NUMBER_SEGMENT : nat := 15.

(** [evt_id] and [seg_id], printed for an event and a segment. *)
Definition evt_id (nevent : N) : string := "[EVENT=" +:+ hex8 nevent +:+ "]".
Definition seg_id (nevent nseg : N) : string :=
  "[EVENT=" +:+ hex8 nevent +:+ ";SEG=" +:+ hex8 nseg +:+ "]".

(** [argc > 1 ? argv[1] : "toy.root"] *)
Definition filename (argv : list string) : string :=
  default "toy.root" (argv !! 1).

Section toy.
(** [form::technology::ROOT_TTREE] and [ROOT_RNTUPLE] and the addresses of
    the vectors the products point to (by event and segment) are what they
    are. *)
Context (ROOT_TTREE ROOT_RNTUPLE : Z).
Context (track_start_x track_n_hits start_points : N → N → pointer).
Context (track_x : N → pointer).

(** The configuration of the writer. *)
Definition writer_config (argv : list string) : parse_config :=
  configure
    [ add_item "trackStart" (filename argv) ROOT_TTREE;
      add_item "trackNumberHits" (filename argv) ROOT_TTREE;
      add_item "trackStartPoints" (filename argv) ROOT_TTREE;
      add_item "trackStartX" (filename argv) ROOT_TTREE;
      add_container_setting ROOT_TTREE "trackStart" "auto_flush" "1";
      add_file_setting ROOT_TTREE (filename argv) "compression" "kZSTD";
      add_container_setting ROOT_RNTUPLE "Toy_Tracker/trackStartPoints"
        "force_streamer_field" "true" ]
    empty_config.

(** The configuration of the reader. *)
Definition reader_config (argv : list string) : parse_config :=
  configure
    [ add_item "trackStart" (filename argv) ROOT_TTREE;
      add_item "trackNumberHits" (filename argv) ROOT_TTREE;
      add_item "trackStartPoints" (filename argv) ROOT_TTREE;
      add_item "trackStartX" (filename argv) ROOT_TTREE ]
    empty_config.

(** The body of the loop over the segments of the writer. *)
Definition write_segment (nevent nseg : N) : action unit :=
  let seg_id_text := seg_id nevent nseg in
  let creator := "Toy_Tracker" in
  let pb := {| label := "trackStart"; id := seg_id_text;
               data := track_start_x nevent nseg; type := vector_float |} in
  _ ← set_name vector_float "std::vector<float>";
  let pb_int := {| label := "trackNumberHits"; id := seg_id_text;
                   data := track_n_hits nevent nseg; type := vector_int |} in
  _ ← set_name vector_int "std::vector<int>";
  let pb_points := {| label := "trackStartPoints"; id := seg_id_text;
                      data := start_points nevent nseg;
                      type := vector_TrackStart |} in
  _ ← set_name vector_TrackStart "std::vector<TrackStart>";
  write_batch creator [pb; pb_int; pb_points].

(** The body of the loop over the events of the writer. *)
Definition write_event (nevent : N) : action unit :=
  _ ← for_each (write_segment nevent) (N.of_nat <$> seq 0 NUMBER_SEGMENT);
  let evt_id_text := evt_id nevent in
  let creator := "Toy_Tracker_Event" in
  let pb := {| label := "trackStartX"; id := evt_id_text;
               data := track_x nevent; type := vector_float |} in
  _ ← set_name vector_float "std::vector<float>";
  write creator pb.

(** [main] of the writer: the outcome and the interface it leaves. The type
    map starts empty ([createTypeMap]). *)
Definition writer_main (argv : list string) : (string + unit) * form_interface :=
  for_each write_event (N.of_nat <$> seq 0 NUMBER_EVENT)
    (make_form_interface ∅ (writer_config argv)).

(** The body of the loop over the segments of the reader; the products are
    handed over with a null data pointer. *)
Definition read_segment (nevent nseg : N) : action unit :=
  let seg_id_text := seg_id nevent nseg in
  let creator := "Toy_Tracker" in
  let pb := {| label := "trackStart"; id := seg_id_text;
               data := 0%N; type := vector_float |} in
  _ ← set_name vector_float "std::vector<float>";
  _ ← read creator pb;
  let pb_int := {| label := "trackNumberHits"; id := seg_id_text;
                   data := 0%N; type := vector_int |} in
  _ ← set_name vector_int "std::vector<int>";
  _ ← read creator pb_int;
  let pb_points := {| label := "trackStartPoints"; id := seg_id_text;
                      data := 0%N; type := vector_TrackStart |} in
  _ ← set_name vector_TrackStart "std::vector<TrackStart>";
  read creator pb_points.

(** The body of the loop over the events of the reader. *)
Definition read_event (nevent : N) : action unit :=
  _ ← for_each (read_segment nevent) (N.of_nat <$> seq 0 NUMBER_SEGMENT);
  let evt_id_text := evt_id nevent in
  let creator := "Toy_Tracker_Event" in
  let pb := {| label := "trackStartX"; id := evt_id_text;
               data := 0%N; type := vector_float |} in
  _ ← set_name vector_float "std::vector<float>";
  read creator pb.

(** [main] of the reader. *)
Definition reader_main (argv : list string) : (string + unit) * form_interface :=
  for_each read_event (N.of_nat <$> seq 0 NUMBER_EVENT)
    (make_form_interface ∅ (reader_config argv)).

End toy.

(** The states in which the four products of the toy programs are
    configured. *)
Definition ready (st : form_interface) : Prop :=
  Forall (λ l, is_Some (m_product_to_config st !! l))
    ["trackStart"; "trackNumberHits"; "trackStartPoints"; "trackStartX"].

(** The type map once [main] has named the three types. *)
Definition named (tm : gmap type_index string) : gmap type_index string :=
  <[vector_TrackStart := "std::vector<TrackStart>"]>
    (<[vector_int := "std::vector<int>"]>
       (<[vector_float := "std::vector<float>"]> tm)).

Section toy_traces.
Context (track_start_x track_n_hits start_points : N → N → pointer).
Context (track_x : N → pointer).

(** The calls of one segment and of one event of the writer, and of the
    whole loop. *)
Definition segment_calls (nevent nseg : N) : list persistence_call :=
  [ createContainers "Toy_Tracker"
      {[ "trackStart" := "std::vector<float>";
         "trackNumberHits" := "std::vector<int>";
         "trackStartPoints" := "std::vector<TrackStart>" ]};
    registerWrite "Toy_Tracker" "trackStart" (track_start_x nevent nseg)
      "std::vector<float>";
    registerWrite "Toy_Tracker" "trackNumberHits" (track_n_hits nevent nseg)
      "std::vector<int>";
    registerWrite "Toy_Tracker" "trackStartPoints" (start_points nevent nseg)
      "std::vector<TrackStart>";
    commitOutput "Toy_Tracker" (seg_id nevent nseg) ].

Definition event_calls (nevent : N) : list persistence_call :=
  [ createContainers "Toy_Tracker_Event"
      {[ "trackStartX" := "std::vector<float>" ]};
    registerWrite "Toy_Tracker_Event" "trackStartX" (track_x nevent)
      "std::vector<float>";
    commitOutput "Toy_Tracker_Event" (evt_id nevent) ].

Definition writer_calls : list persistence_call :=
  (N.of_nat <$> seq 0 NUMBER_EVENT) ≫= λ nevent,
    ((N.of_nat <$> seq 0 NUMBER_SEGMENT) ≫= segment_calls nevent)
    ++ event_calls nevent.

(** The calls of one segment and of one event of the reader, and of the
    whole loop. *)
Definition segment_reads (nevent nseg : N) : list persistence_call :=
  [ read_call "Toy_Tracker" "trackStart" (seg_id nevent nseg)
      "std::vector<float>";
    read_call "Toy_Tracker" "trackNumberHits" (seg_id nevent nseg)
      "std::vector<int>";
    read_call "Toy_Tracker" "trackStartPoints" (seg_id nevent nseg)
      "std::vector<TrackStart>" ].

Definition event_reads (nevent : N) : list persistence_call :=
  [ read_call "Toy_Tracker_Event" "trackStartX" (evt_id nevent)
      "std::vector<float>" ].

Definition reader_calls : list persistence_call :=
  (N.of_nat <$> seq 0 NUMBER_EVENT) ≫= λ nevent,
    ((N.of_nat <$> seq 0 NUMBER_SEGMENT) ≫= segment_reads nevent)
    ++ event_reads nevent.

End toy_traces.

End Toy.

(** ** FORM: the ROOT TTree container *)

Module RootTTree.

(** ROOT's [TFile] and [TTree] objects, known by their addresses. *)
Definition TFile_ptr : Type := N.
Definition TTree_ptr : Type := N.

(** An [IStorage_File] as [setFile] sees it: a [ROOT_TFileImp], with the
    [TFile] its [getTFile()] returns (null or not), or a file of another
    kind, for which the [dynamic_cast] yields null. *)
Inductive storage_file :=
  | ROOT_TFileImp (tfile : option TFile_ptr)
  | other_file (name : string).

(** What the container does to ROOT objects. *)
Inductive root_call :=
  | TTree_SetDirectory (tree : TTree_ptr) (tfile : TFile_ptr)
  | TTree_Write (tree : TTree_ptr)
  | TTree_delete (tree : TTree_ptr).

Section container.
(** [TFile::Get<TTree>(name)] and [new TTree(name, title)] belong to ROOT;
    the base class [Storage_Association], with its [name()] and its
    [setFile], is defined elsewhere. They are parameters of the model. *)
Context (Get : TFile_ptr → string → option TTree_ptr).
Context (new_TTree : string → string → TTree_ptr).
Context {Storage_Association : Type}.
Context (make_association : string → Storage_Association).
Context (association_name : Storage_Association → string).
Context (association_setFile :
           option storage_file → Storage_Association → Storage_Association).

(** [ROOT_TTree_ContainerImp]: the base class object and the two data
    members; [root_calls] is a ghost field with the calls made on ROOT
    objects, in order. *)
Record ROOT_TTree_ContainerImp := Build_ROOT_TTree_ContainerImp {
  base : Storage_Association;
  m_tfile : option TFile_ptr;
  m_tree : option TTree_ptr;
  root_calls : list root_call
}.

(** A member function throws a [std::runtime_error] or returns, and leaves
    a container. *)
Definition outcome (A : Type) : Type := (string + A) * ROOT_TTree_ContainerImp.

(** The constructor. *)
Definition make_container (name : string) : ROOT_TTree_ContainerImp :=
  {| base := make_association name; m_tfile := None; m_tree := None;
     root_calls := [] |}.

(** [ROOT_TTree_ContainerImp::setFile]; a null [std::shared_ptr] is
    [None]. *)
Definition setFile (file : option storage_file) (c : ROOT_TTree_ContainerImp)
  : outcome unit :=
  let c1 := {| base := association_setFile file (base c);
               m_tfile := m_tfile c; m_tree := m_tree c;
               root_calls := root_calls c |} in
  match file with
  | Some (ROOT_TFileImp tfile) =>
      (inr tt, {| base := base c1; m_tfile := tfile; m_tree := m_tree c1;
                  root_calls := root_calls c1 |})
  | _ =>
      (inl "ROOT_TTree_ContainerImp::setFile can't attach to non-ROOT file", c1)
  end.

(** [ROOT_TTree_ContainerImp::setupWrite], its four tests in their order. *)
Definition setupWrite (type : string) (c : ROOT_TTree_ContainerImp)
  : outcome unit :=
  match m_tfile c with
  | None => (inl "ROOT_TTree_ContainerImp::setupWrite no file attached", c)
  | Some tfile =>
      let name := association_name (base c) in
      let c1 :=
        match m_tree c with
        | None => {| base := base c; m_tfile := m_tfile c;
                     m_tree := Get tfile name; root_calls := root_calls c |}
        | Some _ => c
        end in
      let c2 :=
        match m_tree c1 with
        | None => {| base := base c1; m_tfile := m_tfile c1;
                     m_tree := Some (new_TTree name name);
                     root_calls :=
                       root_calls c1
                         ++ [TTree_SetDirectory (new_TTree name name) tfile] |}
        | Some _ => c1
        end in
      match m_tree c2 with
      | None => (inl "ROOT_TTree_ContainerImp::setupWrite no tree created", c2)
      | Some _ => (inr tt, c2)
      end
  end.

(** [fill], [commit] and [read] *)
Definition fill (data : N) (c : ROOT_TTree_ContainerImp) : outcome unit :=
  (inl "ROOT_TTree_ContainerImp::fill not implemented", c).

Definition commit (c : ROOT_TTree_ContainerImp) : outcome unit :=
  (inl "ROOT_TTree_ContainerImp::commit not implemented", c).

Definition read (id : Z) (c : ROOT_TTree_ContainerImp) : outcome bool :=
  (inl "ROOT_TTree_ContainerImp::read not implemented", c).

Definition getTTree (c : ROOT_TTree_ContainerImp) : option TTree_ptr := m_tree c.

(** The destructor: the calls on ROOT objects once it has run. *)
Definition destroy (c : ROOT_TTree_ContainerImp) : list root_call :=
  match m_tree c with
  | Some tree => root_calls c ++ [TTree_Write tree; TTree_delete tree]
  | None => root_calls c
  end.

(** The calls a user makes on a container. *)
Inductive container_call :=
  | call_setFile (file : option storage_file)
  | call_setupWrite (type : string)
  | call_fill (data : N)
  | call_commit
  | call_read (id : Z).

(** A call with its exception caught: the container it leaves. *)
Definition after (call : container_call) (c : ROOT_TTree_ContainerImp)
  : ROOT_TTree_ContainerImp :=
  match call with
  | call_setFile file => (setFile file c).2
  | call_setupWrite type => (setupWrite type c).2
  | call_fill data => (fill data c).2
  | call_commit => (commit c).2
  | call_read id => (read id c).2
  end.

(** Calls one after the other. *)
Definition after_all (calls : list container_call) (c : ROOT_TTree_ContainerImp)
  : ROOT_TTree_ContainerImp :=
  foldl (λ c call, after call c) c calls.

End container.

Arguments ROOT_TTree_ContainerImp : clear implicits.

(** A ROOT without trees in its files, where every new tree is at address 7,
    and a base class that is the name of the container, for the examples:
    the container "hits" with a file set and set up for writing. *)
Definition demo_container : ROOT_TTree_ContainerImp string :=
  after_all (λ _ _, None) (λ _ _, 7%N) id (λ _ a, a)
    [ call_setFile (Some (ROOT_TFileImp (Some 1%N))); call_setupWrite "hits" ]
    (make_container id "hits").

End RootTTree.

(** ** Hashing: the variadic [hash] *)

Module Hashing.

(** An argument of [hash] after the first: a [std::size_t] or a string. *)
Inductive argument :=
  | size_arg (k : N)
  | string_arg (s : string).

Section hashing.
(** [hash(std::size_t, std::size_t)] and [hash(std::size_t, std::string
    const&)] are declared in the header and defined elsewhere; they are
    parameters of the model. *)
Context (hash_size : N → N → N).
Context (hash_string : N → string → N).

(** A call [hash(i, x)] with two arguments: the overload for the type of
    [x]. *)
Definition hash_two (i : N) (x : argument) : N :=
  match x with
  | size_arg j => hash_size i j
  | string_arg s => hash_string i s
  end.

(** [hash(i, j, ks...)], the variadic template, for the pack [k, ks...]:
    [hash(hash(i, j), k, ks...)], which is a call with two arguments for a
    pack of one and the template again for a longer pack. [None] is a call
    that does not compile: the template takes a [std::size_t] in its second
    place, so a string can only come last. *)
Fixpoint hash_pack (i j : N) (k : argument) (ks : list argument) : option N :=
  match ks with
  | [] => Some (hash_two (hash_size i j) k)
  | k' :: ks' =>
      match k with
      | size_arg n => hash_pack (hash_size i j) n k' ks'
      | string_arg _ => None
      end
  end.

End hashing.
End Hashing.

(** * Part II: the statements *)

(** ** Registrar *)

Module RegistrarSpec.
Import Registrar.

Section registrar_spec.
Context {Node : Type} `{!NodeLike Node} `{!ErrorText}.
Implicit Types (r : registrar Node) (e : env Node) (s : statement Node).
Implicit Types (m : gmap string Node).

Lemma try_emplace_fresh name ptr m :
  m !! name = None → try_emplace name ptr m = (<[name := ptr]> m, true).
Proof. unfold try_emplace. by intros ->. Qed.

Lemma try_emplace_present name ptr m first :
  m !! name = Some first → try_emplace name ptr m = (m, false).
Proof. unfold try_emplace. by intros ->. Qed.

Lemma try_emplace_other name ptr m k :
  k ≠ name → (try_emplace name ptr m).1 !! k = m !! k.
Proof.
  intros Hk. unfold try_emplace.
  destruct (m !! name); simpl; [done|]. by rewrite lookup_insert_ne.
Qed.

(** One execution of [create_node], spelled out. *)
Lemma create_node_unfold labels r e c :
  creator_ r = Some c →
  let preds := default [] (predicates_ r) in
  let node := c preds labels in
  create_node labels r e =
    Some ((release_predicates r).2,
          {| nodes := (try_emplace (full_name node) node (nodes e)).1;
             errors := if (try_emplace (full_name node) node (nodes e)).2
                       then errors e
                       else add_to_error_messages (errors e) (full_name node);
             creator_log := creator_log e ++ [(preds, labels)] |}).
Proof.
  intros Hc. unfold create_node. rewrite Hc. simpl.
  by destruct (try_emplace _ _ _).
Qed.

Lemma create_node_no_creator labels r e :
  creator_ r = None → create_node labels r e = None.
Proof. unfold create_node. by intros ->. Qed.

Lemma statement_registrar_creator s :
  creator_ (statement_registrar s) = Some (st_creator s).
Proof. unfold statement_registrar. by destruct (st_when s). Qed.

Lemma statement_registrar_predicates s :
  predicates_ (statement_registrar s) = st_when s.
Proof. unfold statement_registrar. by destruct (st_when s). Qed.

Lemma statement_registrar_output_products s :
  output_products_ (statement_registrar s) = [].
Proof. unfold statement_registrar. by destruct (st_when s). Qed.

(** A statement amounts to one execution of [create_node], on either path. *)
Lemma run_statement_create_node s e :
  run_statement s e =
    snd <$> create_node (statement_arguments s).2 (statement_registrar s) e.
Proof.
  unfold run_statement, statement_arguments, set_output_products, destroy; simpl.
  destruct (st_output_products s) as [ops|]; simpl.
  - rewrite (create_node_unfold _ _ _ _ (statement_registrar_creator s)). done.
  - by rewrite statement_registrar_creator, statement_registrar_output_products.
Qed.

(** The environment a statement leaves. *)
Lemma run_statement_unfold s e :
  let node := declared_node s in
  run_statement s e =
    Some {| nodes := (try_emplace (full_name node) node (nodes e)).1;
            errors := if (try_emplace (full_name node) node (nodes e)).2
                      then errors e
                      else add_to_error_messages (errors e) (full_name node);
            creator_log := creator_log e ++ [statement_arguments s] |}.
Proof.
  intros node. rewrite run_statement_create_node.
  rewrite (create_node_unfold _ _ _ _ (statement_registrar_creator s)).
  rewrite statement_registrar_predicates. simpl.
  by destruct s.
Qed.

(** C1, as amended. Destroying a registrar whose creator is set (and neither
    fired nor cleared) invokes the creator exactly once, on the stored
    predicates (the empty list when none was set) and the stored output
    products: the log of creator calls grows by that one call. When the
    catalog has no entry under the full name of the node the creator returns,
    the node is inserted under that name and the error vector is untouched;
    when it has one, the catalog is left as it was. *)
Theorem destroy_fires_creator r e c :
  creator_ r = Some c →
  let preds := default [] (predicates_ r) in
  let node := c preds (output_products_ r) in
  ∃ e',
    destroy r e = Some e' ∧
    creator_log e' = creator_log e ++ [(preds, output_products_ r)] ∧
    (nodes e !! full_name node = None →
       nodes e' = <[full_name node := node]> (nodes e) ∧
       nodes e' !! full_name node = Some node ∧
       errors e' = errors e) ∧
    (∀ first, nodes e !! full_name node = Some first → nodes e' = nodes e).
Proof.
  intros Hc preds node. unfold destroy. rewrite Hc.
  rewrite (create_node_unfold _ _ _ _ Hc). fold preds node. simpl.
  eexists; split; [reflexivity|]. simpl. split; [done|]. split.
  - intros Hfree. rewrite (try_emplace_fresh _ _ _ Hfree). simpl.
    by rewrite lookup_insert_eq.
  - intros first Hfirst. by rewrite (try_emplace_present _ _ _ _ Hfirst).
Qed.

(** C2. A registration whose node has a full name the catalog already holds
    leaves the catalog as it was, so the name still has its one entry, the
    first, and appends exactly one duplicate message to the error vector.
    Consequently registering the same statement twice, from a catalog where
    the name is free, ends with one entry and one message. *)
Theorem duplicate_registration_recorded s e :
  let node := declared_node s in
  (∀ first, nodes e !! full_name node = Some first →
     ∃ e', run_statement s e = Some e' ∧
           nodes e' = nodes e ∧
           nodes e' !! full_name node = Some first ∧
           size (nodes e') = size (nodes e) ∧
           errors e' = errors e ++ [duplicate_message (full_name node)]) ∧
  (nodes e !! full_name node = None →
     ∃ e1 e2, run_statement s e = Some e1 ∧ run_statement s e1 = Some e2 ∧
              nodes e2 = <[full_name node := node]> (nodes e) ∧
              size (nodes e2) = S (size (nodes e)) ∧
              errors e2 = errors e ++ [duplicate_message (full_name node)]).
Proof.
  intros node. split.
  - intros first Hfirst. rewrite run_statement_unfold. fold node.
    rewrite (try_emplace_present _ _ _ _ Hfirst). simpl.
    eexists; split; [reflexivity|]. simpl. done.
  - intros Hfree. rewrite run_statement_unfold. fold node.
    rewrite (try_emplace_fresh _ _ _ Hfree). simpl.
    eexists _, _; split; [reflexivity|].
    rewrite run_statement_unfold. fold node. simpl.
    rewrite (try_emplace_present _ _ (<[_ := _]> _) node)
      by apply lookup_insert_eq.
    simpl. split; [reflexivity|]. simpl.
    split; [done|]. split; [|done]. by apply map_size_insert_None.
Qed.

(** C3, as amended. [output_products(...)] constructs the node on the spot,
    inserts it unless its full name is taken, and clears the creator, so that
    the destructor that follows constructs nothing and changes nothing; and a
    registration statement, with or without [output_products], invokes its
    creator exactly once, on the arguments of the statement, and inserts the
    one node it constructs unless the full name of that node is taken, when
    the catalog stays as it was and one message is recorded. *)
Theorem statement_registers_once :
  (∀ (c : node_creator Node) r0 e ops,
     let r := set_creator c r0 in
     let node := c (default [] (predicates_ r0)) ops in
     ∃ r' e',
       set_output_products ops r e = Some (r', e') ∧
       creator_log e' = creator_log e ++ [(default [] (predicates_ r0), ops)] ∧
       (nodes e !! full_name node = None →
          nodes e' !! full_name node = Some node) ∧
       (∀ first, nodes e !! full_name node = Some first → nodes e' = nodes e) ∧
       creator_ r' = None ∧
       destroy r' e' = Some e') ∧
  (∀ s e,
     let node := declared_node s in
     ∃ e',
       run_statement s e = Some e' ∧
       creator_log e' = creator_log e ++ [statement_arguments s] ∧
       (nodes e !! full_name node = None →
          nodes e' = <[full_name node := node]> (nodes e) ∧
          size (nodes e') = S (size (nodes e)) ∧
          errors e' = errors e) ∧
       (∀ first, nodes e !! full_name node = Some first →
          nodes e' = nodes e ∧
          length (errors e') = S (length (errors e)))).
Proof.
  split.
  - intros c r0 e ops r node. unfold set_output_products.
    assert (Hc : creator_ r = Some c) by done.
    rewrite (create_node_unfold _ _ _ _ Hc). simpl. fold node.
    eexists _, _; split; [reflexivity|]. simpl. split; [done|].
    split; [|split; [|done]].
    + intros Hfree. rewrite (try_emplace_fresh _ _ _ Hfree). simpl.
      by rewrite lookup_insert_eq.
    + intros first Hfirst. by rewrite (try_emplace_present _ _ _ _ Hfirst).
  - intros s e node. rewrite run_statement_unfold. fold node.
    eexists; split; [reflexivity|]. simpl. split; [done|]. split.
    + intros Hfree. rewrite (try_emplace_fresh _ _ _ Hfree). simpl.
      split; [done|]. split; [|done]. by apply map_size_insert_None.
    + intros first Hfirst. rewrite (try_emplace_present _ _ _ _ Hfirst). simpl.
      split; [done|]. unfold add_to_error_messages. rewrite length_app. simpl. lia.
Qed.

End registrar_spec.

Import GraphProxy.

(** The registrar of [demo_proxy.fold("sum", f).input_family("x")] goes out
    of scope: the fold node is created from no predicates and no output
    products, and is found in the catalog under "demo:sum". *)
Lemma destroy_fires_creator_witness :
  ∃ e',
    destroy (H := demo_error_text)
      demo_registrar demo_env = Some e' ∧
    creator_log e' = [([], [])] ∧
    fn_partition <$> nodes e' !! "demo:sum" = Some "job".
Proof.
  destruct (destroy_fires_creator (H := demo_error_text)
              demo_registrar demo_env _ eq_refl)
    as (e' & He' & Hlog & Hfree & _).
  destruct (Hfree eq_refl) as (_ & Hnode & _).
  exists e'. split; [exact He'|]. split; [exact Hlog|].
  change (fn_partition <$> nodes e' !! "demo:sum" = Some "job").
  etransitivity; [exact (f_equal (fmap fn_partition) Hnode)|].
  reflexivity.
Defined.

(** "sum" is registered with the output product "total"; a second
    registrar for "sum" goes out of scope: its node, which has no output
    product, is not the entry of the catalog under "demo:sum". *)
Lemma destroy_leaves_taken_name :
  ∃ c e',
    creator_ demo_registrar = Some c ∧
    destroy (H := demo_error_text) demo_registrar demo_taken_env = Some e' ∧
    nodes e' !! full_name (c [] []) ≠ Some (c [] []).
Proof.
  eexists _, (default demo_env (destroy (H := demo_error_text)
                                  demo_registrar demo_taken_env)).
  split; [reflexivity|]. split; [vm_compute; reflexivity|].
  intros Heq. apply (f_equal (fmap fn_output_products)) in Heq.
  vm_compute in Heq. discriminate Heq.
Qed.

(** "sum" is registered with the output product "total"; a second
    statement for "sum" calls [output_products("other")]: the node it
    constructs does not enter the catalog, which stays as it was. *)
Lemma output_products_leaves_taken_name :
  ∃ c r' e',
    creator_ demo_registrar = Some c ∧
    set_output_products (H := demo_error_text) ["other"]
      demo_registrar demo_taken_env = Some (r', e') ∧
    nodes e' !! full_name (c [] ["other"]) ≠ Some (c [] ["other"]) ∧
    nodes e' = nodes demo_taken_env.
Proof.
  destruct (set_output_products (H := demo_error_text) ["other"]
              demo_registrar demo_taken_env) as [[r' e']|] eqn:Hset;
    [|vm_compute in Hset; discriminate Hset].
  eexists _, r', e'. split; [reflexivity|]. split; [reflexivity|].
  assert (He' : Some e' = snd <$> set_output_products (H := demo_error_text)
                            ["other"] demo_registrar demo_taken_env)
    by (by rewrite Hset).
  vm_compute in He'. injection He' as ->. split.
  - intros Heq. apply (f_equal (fmap fn_output_products)) in Heq.
    vm_compute in Heq. discriminate Heq.
  - vm_compute. reflexivity.
Qed.

(** With [output_products]: one creator call, and nothing left for the
    destructor. *)
Lemma statement_registers_once_witness :
  ∃ s e',
    demo_fold (Some ["total"]) = Some s ∧
    run_statement (H := demo_error_text) s demo_env = Some e' ∧
    creator_log e' = [([], ["total"])] ∧
    size (nodes e') = 1 ∧ errors e' = [].
Proof.
  eexists.
  match goal with |- ∃ e', ?d = Some ?s ∧ _ =>
    destruct (statement_registers_once (H := demo_error_text)
                (Node := fold_node unit unit Z)) as [_ Hrun];
    destruct (Hrun s demo_env) as (e' & He' & Hlog & Hfree & _) end.
  destruct (Hfree eq_refl) as (_ & Hsize & Herr).
  exists e'. split; [reflexivity|]. split; [exact He'|].
  split; [exact Hlog|]. split; [exact Hsize|exact Herr].
Defined.

(** The statement [demo_proxy.fold("sum", f).input_family("x")] written
    twice: one entry, one message. *)
Lemma duplicate_registration_recorded_witness :
  ∃ s e1 e2,
    demo_fold None = Some s ∧
    run_statement (H := demo_error_text) s demo_env
      = Some e1 ∧
    run_statement (H := demo_error_text) s e1 = Some e2 ∧
    size (nodes e2) = 1 ∧
    errors e2 = ["duplicate node demo:sum"].
Proof.
  eexists.
  match goal with |- ∃ e1 e2, ?d = Some ?s ∧ _ =>
    destruct (duplicate_registration_recorded (H := demo_error_text)
                s demo_env) as [_ Htwice] end.
  destruct (Htwice eq_refl) as (e1 & e2 & H1 & H2 & _ & Hsize & Herr).
  exists e1, e2. split; [reflexivity|]. split; [exact H1|].
  split; [exact H2|]. split; [exact Hsize|exact Herr].
Defined.

End RegistrarSpec.

(** ** Graph proxy *)

Module GraphProxySpec.
Import Registrar GraphProxy.

Section graph_proxy_spec.
Context {configuration T F Init : Type} `{!AlgorithmNaming configuration}.
Context `{!ErrorText}.
Implicit Types (gp : graph_proxy configuration T) (f : F) (init : Init).
Implicit Types (e : env (fold_node T F Init)).

Lemma fold_api_keeps_arguments (config : option configuration) name
    (alg : option T * F) c partition init inputs preds outs :
  ∃ creator,
    creator_ (input_family (make_fold_api config name alg c partition init) inputs)
      = Some creator ∧
    fn_partition (creator preds outs) = partition ∧
    fn_concurrency (creator preds outs) = value c ∧
    fn_name (creator preds outs) = make_algorithm_name config name.
Proof. eexists; split; [reflexivity|]. done. Qed.

(** C9. [graph_proxy::fold] called with a name and a function only: the fold
    node the statement creates has the partition key "job" and the
    concurrency [serial], which is one permit; that node is what the
    statement registers. *)
Theorem fold_defaults gp name f init inputs when ops e :
  value serial = 1%N ∧
  ∃ s,
    fold_statement gp name f None None init inputs when ops = Some s ∧
    (∀ preds outs,
       fn_partition (st_creator s preds outs) = "job" ∧
       fn_concurrency (st_creator s preds outs) = value serial) ∧
    ∃ e',
      run_statement s e = Some e' ∧
      creator_log e' = creator_log e ++ [statement_arguments s] ∧
      (nodes e !! full_name (declared_node s) = None →
         ∃ node, nodes e' !! full_name (declared_node s) = Some node ∧
                 fn_partition node = "job" ∧
                 fn_concurrency node = 1%N).
Proof.
  split; [done|].
  eexists; split; [reflexivity|]. split; [done|].
  rewrite RegistrarSpec.run_statement_unfold.
  eexists; split; [reflexivity|]. simpl. split; [done|].
  intros Hfree. rewrite (RegistrarSpec.try_emplace_fresh _ _ _ Hfree).
  simpl. rewrite lookup_insert_eq. eexists; split; [reflexivity|]. done.
Qed.

(** An explicit concurrency or partition is handed on as it is given. *)
Lemma fold_explicit_arguments gp name f c partition init inputs preds outs :
  ∃ creator,
    creator_ (input_family
                (graph_proxy_fold gp name f (Some c) (Some partition) init)
                inputs) = Some creator ∧
    fn_partition (creator preds outs) = partition ∧
    fn_concurrency (creator preds outs) = value c.
Proof. eexists; split; [reflexivity|]. done. Qed.

End graph_proxy_spec.

(** [demo_proxy.fold("sum", f).input_family("x").output_products("total")]
    on an empty catalog. *)
Lemma fold_defaults_witness :
  ∃ node,
    (demo_fold (Some ["total"])
       ≫= λ s, run_statement (H := demo_error_text) s demo_env)
      ≫= (λ e, nodes e !! "demo:sum") = Some node ∧
    fn_partition node = "job" ∧ fn_concurrency node = 1%N.
Proof.
  destruct (fold_defaults (AlgorithmNaming0 := demo_naming) (H := demo_error_text)
              demo_proxy "sum" tt 0%Z
              [Build_specified_label "x" None] None (Some ["total"]) demo_env)
    as (_ & s & Hs & _ & e' & He' & _ & Hnode).
  destruct (Hnode eq_refl) as (node & Hlook & Hp & Hc).
  exists node. unfold demo_fold. rewrite Hs. simpl. rewrite He'. simpl.
  injection Hs as <-. done.
Defined.

End GraphProxySpec.

(** ** Product stores *)

Module ProductStoreSpec.
Import ProductStore.

Section product_store_spec.
Context {product : Type}.
Local Abbreviation heap := (list (product_store product)).
Implicit Types (h : heap) (s : product_store product) (a p : address).
Implicit Types (c : call product).

(** *** Allocation *)

Lemma alloc_lookup_new s h : (alloc s h).2 !! (alloc s h).1 = Some s.
Proof.
  unfold alloc. simpl. rewrite lookup_app_r by lia.
  by rewrite Nat.sub_diag.
Qed.

Lemma alloc_lookup_old s h a s' :
  h !! a = Some s' → (alloc s h).2 !! a = Some s' ∧ (alloc s h).1 ≠ a.
Proof.
  intros Ha. pose proof (lookup_lt_Some _ _ _ Ha) as Hlt.
  unfold alloc. simpl. split; [by rewrite lookup_app_l|lia].
Qed.

Lemma alloc_well_formed s h :
  well_formed h →
  (∀ p, parent_ s = Some p → p < length h) →
  well_formed (alloc s h).2.
Proof.
  intros Hwf Hs a s' p Ha Hp. unfold alloc in Ha. simpl in Ha.
  destruct (decide (a < length h)) as [Hlt|Hge].
  - rewrite lookup_app_l in Ha by done. eauto.
  - rewrite lookup_app_r in Ha by lia.
    destruct (a - length h) as [|n] eqn:Hn; simpl in Ha; [|done].
    injection Ha as <-. specialize (Hs _ Hp). lia.
Qed.

(** *** Every operation keeps the heap well formed *)

Lemma step_well_formed c h h' :
  step c h = Some h' → well_formed h → well_formed h'.
Proof.
  intros Hstep Hwf. destruct c; simpl in Hstep.
  - injection Hstep as <-. apply alloc_well_formed; [done|]. by intros p.
  - unfold make_child in Hstep.
    destruct (h !! a) as [s|] eqn:Ha; simpl in Hstep; [|done].
    injection Hstep as <-. apply alloc_well_formed; [done|].
    intros p [= <-]. by eapply lookup_lt_Some.
  - unfold make_child_stage in Hstep.
    destruct (h !! a) as [s|] eqn:Ha; simpl in Hstep; [|done].
    injection Hstep as <-. apply alloc_well_formed; [done|].
    intros p [= <-]. by eapply lookup_lt_Some.
  - unfold make_continuation in Hstep.
    destruct (h !! a) as [s|] eqn:Ha; simpl in Hstep; [|done].
    injection Hstep as <-. apply alloc_well_formed; [done|].
    simpl. intros p Hp. pose proof (Hwf _ _ _ Ha Hp).
    pose proof (lookup_lt_Some _ _ _ Ha). lia.
  - unfold make_flush in Hstep.
    destruct (h !! a) as [s|] eqn:Ha; simpl in Hstep; [|done].
    injection Hstep as <-. apply alloc_well_formed; [done|].
    simpl. intros p Hp. pose proof (Hwf _ _ _ Ha Hp).
    pose proof (lookup_lt_Some _ _ _ Ha). lia.
  - unfold add_product in Hstep.
    destruct (h !! a) as [s|] eqn:Ha; simpl in Hstep; [|done].
    destruct (products_add key t (products_ s)) as [ps|]; simpl in Hstep; [|done].
    injection Hstep as <-. intros a' s' p Ha' Hp.
    destruct (decide (a = a')) as [<-|Hne].
    + rewrite list_lookup_insert_eq in Ha' by (by eapply lookup_lt_Some).
      injection Ha' as <-. simpl in Hp. eauto.
    + rewrite list_lookup_insert_ne in Ha' by done. eauto.
Qed.

Lemma run_well_formed cs h h' :
  run cs h = Some h' → well_formed h → well_formed h'.
Proof.
  revert h. induction cs as [|c cs IH]; intros h; simpl.
  - by intros [= <-].
  - destruct (step c h) as [h1|] eqn:Hstep; simpl; [|done].
    intros Hrun Hwf. eapply IH; [done|]. by eapply step_well_formed.
Qed.

Lemma reachable_well_formed h : reachable h → well_formed h.
Proof. intros [cs Hcs]. eapply run_well_formed; [done|]. by intros a s p. Qed.

(** *** The chain of ancestors *)

Lemma lineage_from_le h n a x :
  well_formed h → x ∈ lineage_from n h a → x ≤ a.
Proof.
  intros Hwf. revert a. induction n as [|n IH]; intros a; simpl.
  - by intros ?%elem_of_nil.
  - destruct (h !! a) as [s|] eqn:Ha; [|by intros ?%elem_of_nil].
    intros [->|Hx]%elem_of_cons; [done|].
    destruct (parent_ s) as [p|] eqn:Hp; [|by apply elem_of_nil in Hx].
    specialize (IH _ Hx). specialize (Hwf _ _ _ Ha Hp). lia.
Qed.

Lemma lineage_from_valid h n a x : x ∈ lineage_from n h a → a < length h.
Proof.
  destruct n as [|n]; simpl; [by intros ?%elem_of_nil|].
  destruct (h !! a) as [s|] eqn:Ha; [|by intros ?%elem_of_nil].
  intros _. by eapply lookup_lt_Some.
Qed.

(** More rounds than the address of the store change nothing: [length h]
    rounds reach the root. *)
Lemma lineage_from_fuel h n m a :
  well_formed h → a < n → a < m → lineage_from n h a = lineage_from m h a.
Proof.
  intros Hwf. revert m a. induction n as [|n IH]; intros m a Hn Hm; [lia|].
  destruct m as [|m]; [lia|]. simpl.
  destruct (h !! a) as [s|] eqn:Ha; [|done].
  destruct (parent_ s) as [p|] eqn:Hp; [|done].
  specialize (Hwf _ _ _ Ha Hp). f_equal. apply IH; lia.
Qed.

Lemma lineage_unfold h a s :
  well_formed h → h !! a = Some s →
  lineage h a = a :: from_option (lineage h) [] (parent_ s).
Proof.
  intros Hwf Ha. pose proof (lookup_lt_Some _ _ _ Ha) as Hlt.
  unfold lineage.
  rewrite (lineage_from_fuel h (length h) (S a) a Hwf Hlt (Nat.lt_succ_diag_r a)).
  simpl. rewrite Ha. f_equal.
  destruct (parent_ s) as [p|] eqn:Hp; [|done]. simpl.
  pose proof (Hwf _ _ _ Ha Hp). apply lineage_from_fuel; [done|lia..].
Qed.

Lemma ancestors_lt h a x : well_formed h → x ∈ ancestors h a → x < a.
Proof.
  intros Hwf. unfold ancestors, lineage.
  destruct (length h) as [|n]; simpl; [by intros ?%elem_of_nil|].
  destruct (h !! a) as [s|] eqn:Ha; simpl; [|by intros ?%elem_of_nil].
  destruct (parent_ s) as [p|] eqn:Hp; [|by intros ?%elem_of_nil].
  intros Hx%lineage_from_le; [|done]. specialize (Hwf _ _ _ Ha Hp). lia.
Qed.

(** *** store_for_product *)

Lemma store_for_product_loop_found h name n a owner s :
  well_formed h → a < n →
  owner ∈ lineage_from n h a →
  h !! owner = Some s → contains_product s name = true →
  ∃ found t, store_for_product_loop n h name (Some a) = Some (Some found) ∧
             found ∈ lineage_from n h a ∧
             h !! found = Some t ∧ contains_product t name = true.
Proof.
  intros Hwf. revert a. induction n as [|n IH]; intros a Hn; [lia|].
  cbn [lineage_from store_for_product_loop].
  destruct (h !! a) as [d|] eqn:Ha; [|by intros ?%elem_of_nil].
  intros Hin Hs Hc.
  simpl. destruct (contains_product d name) eqn:Hd.
  - exists a, d. split; [done|]. split; [by left|done].
  - apply elem_of_cons in Hin as [->|Hin]; [congruence|].
    destruct (parent_ d) as [p|] eqn:Hp; [|by apply elem_of_nil in Hin].
    specialize (Hwf _ _ _ Ha Hp).
    destruct (IH p) as (found & t & Hloop & Hfound & Ht & Hct); [lia|done..|].
    exists found, t. split; [done|]. split; [by right|done].
Qed.

Lemma store_for_product_loop_none h name n a :
  well_formed h → a < n → a < length h →
  (∀ x t, x ∈ lineage_from n h a → h !! x = Some t →
          contains_product t name = false) →
  store_for_product_loop n h name (Some a) = Some None.
Proof.
  intros Hwf. revert a. induction n as [|n IH]; intros a Hn Ha Hnone; [lia|].
  cbn [lineage_from store_for_product_loop] in *.
  destruct (lookup_lt_is_Some_2 _ _ Ha) as [d Hd].
  rewrite Hd in *. simpl.
  rewrite (Hnone a d) by (done || by left).
  destruct (parent_ d) as [p|] eqn:Hp.
  - pose proof (Hwf _ _ _ Hd Hp). apply IH; [lia..|].
    intros x t Hx. apply Hnone. by right.
  - by destruct n.
Qed.

(** On a well-formed heap the chain of a store is the store and then its
    ancestors. *)
Lemma elem_of_lineage h a x :
  well_formed h → a < length h →
  x ∈ lineage h a ↔ x = a ∨ x ∈ ancestors h a.
Proof.
  intros Hwf Ha. destruct (lookup_lt_is_Some_2 _ _ Ha) as [s Hs].
  unfold ancestors. rewrite (lineage_unfold _ _ _ Hwf Hs). simpl.
  apply elem_of_cons.
Qed.

(** C5. On a heap where parents are created before their children: when a
    store [owner] contains the product and [store_for_product] is called on
    [owner] or on a descendant of [owner], it returns a store that is the
    store it was called on or one of its ancestors, and that contains the
    product; and when neither the store it is called on nor any of its
    ancestors contains the product, it returns null. *)
Theorem store_for_product_finds_owner h name :
  well_formed h →
  (∀ owner s a,
     h !! owner = Some s → contains_product s name = true →
     a = owner ∨ owner ∈ ancestors h a →
     ∃ found t,
       store_for_product h name a = Some (Some found) ∧
       (found = a ∨ found ∈ ancestors h a) ∧
       h !! found = Some t ∧ contains_product t name = true) ∧
  (∀ a,
     a < length h →
     (∀ x t, x = a ∨ x ∈ ancestors h a → h !! x = Some t →
             contains_product t name = false) →
     store_for_product h name a = Some None).
Proof.
  intros Hwf. split.
  - intros owner s a Hs Hc Hrel.
    assert (Ha : a < length h).
    { destruct Hrel as [->|Hanc]; [by eapply lookup_lt_Some|].
      unfold ancestors, lineage in Hanc.
      destruct (lineage_from (length h) h a) as [|y l] eqn:Hl;
        [by apply elem_of_nil in Hanc|].
      eapply (lineage_from_valid h (length h) a y). rewrite Hl. by left. }
    assert (Hin : owner ∈ lineage h a).
    { apply elem_of_lineage; [done..|]. destruct Hrel as [->|?]; auto. }
    destruct (store_for_product_loop_found h name (length h) a owner s)
      as (found & t & Hloop & Hfound & Ht & Hct); [done..|].
    exists found, t. split; [exact Hloop|]. split; [|done].
    by apply elem_of_lineage.
  - intros a Ha Hnone. unfold store_for_product.
    apply store_for_product_loop_none; [done..|].
    intros x t Hx. apply Hnone. by apply elem_of_lineage.
Qed.

(** *** more_derived and most_derived *)

(** [get_most_derived<I>] folds [more_derived] over the elements from [I]
    on, and the instantiations it takes are at most the size of the tuple. *)
Lemma get_most_derived_fold h tup fuel I element :
  I < length tup → length tup - I ≤ fuel →
  get_most_derived fuel I h tup element
    = Some (foldl (more_derived h) element (drop I tup)).
Proof.
  revert I element. induction fuel as [|fuel IH]; intros I element HI Hfuel; [lia|].
  simpl. destruct (lookup_lt_is_Some_2 _ _ HI) as [x Hx]. rewrite Hx. simpl.
  rewrite (drop_S _ _ _ Hx). simpl. case_bool_decide as Hlast.
  - rewrite drop_ge by lia. done.
  - apply IH; lia.
Qed.

(** C4. For stores [A] and [B] with [A] an ancestor of [B], [most_derived]
    over the pair (A, B) is [B]; a descendant in the first place wins as
    well; for two stores neither of which is an ancestor of the other it is
    the second; and [most_derived] of a tuple is the left fold of the binary
    [more_derived] over its elements, in their order. *)
Theorem most_derived_prefers_descendant h :
  (∀ A B, well_formed h → A ∈ ancestors h B →
          more_derived h A B = B ∧ most_derived h [A; B] = Some B) ∧
  (∀ A B, B ∈ ancestors h A →
          more_derived h A B = A ∧ most_derived h [A; B] = Some A) ∧
  (∀ A B, A ∉ ancestors h B → B ∉ ancestors h A →
          more_derived h A B = B ∧ most_derived h [A; B] = Some B) ∧
  (∀ tup_0 rest,
     most_derived h (tup_0 :: rest) = Some (foldl (more_derived h) tup_0 rest)).
Proof.
  assert (Hfold : ∀ tup_0 rest,
            most_derived h (tup_0 :: rest)
              = Some (foldl (more_derived h) tup_0 rest)).
  { intros tup_0 rest. unfold most_derived. destruct rest as [|x rest]; [done|].
    rewrite get_most_derived_fold by (simpl; lia). done. }
  assert (Hpair : ∀ A B C, more_derived h A B = C →
            more_derived h A B = C ∧ most_derived h [A; B] = Some C).
  { intros A B C HC. split; [done|]. rewrite Hfold. simpl. by rewrite HC. }
  split; [|split; [|split]]; [| | |done].
  - intros A B Hwf HA. apply Hpair.
    unfold more_derived. case_bool_decide as HB; [|done].
    pose proof (ancestors_lt _ _ _ Hwf HA). pose proof (ancestors_lt _ _ _ Hwf HB).
    lia.
  - intros A B HB. apply Hpair. unfold more_derived.
    by rewrite bool_decide_eq_true_2.
  - intros A B _ HB. apply Hpair. unfold more_derived.
    by rewrite bool_decide_eq_false_2.
Qed.

(** *** make_continuation *)

(** C7. [make_continuation(source, products)] on a store [s], whatever the
    product set: the new store has the level identifier of [s] and the
    parent of [s], and carries the products given; it is a new object, and
    [s] is as it was. *)
Theorem make_continuation_keeps_level h a s source new_products :
  h !! a = Some s →
  ∃ a' h' s',
    make_continuation a source new_products h = Some (a', h') ∧
    h' !! a' = Some s' ∧
    id_ s' = id_ s ∧
    parent_ s' = parent_ s ∧
    parent h' a' = parent h' a ∧
    products_ s' = new_products ∧
    a' ≠ a ∧ h' !! a = Some s.
Proof.
  intros Ha. unfold make_continuation. rewrite Ha. simpl.
  eexists _, _, _. split; [reflexivity|].
  destruct (alloc_lookup_old
              {| parent_ := parent_ s; products_ := new_products; id_ := id_ s;
                 source_ := source; stage_ := process |} h a s Ha) as [Hold Hne].
  split; [apply alloc_lookup_new|]. simpl in *.
  repeat split; try done.
  unfold parent. rewrite Hold. simpl.
  rewrite lookup_app_r by lia. by rewrite Nat.sub_diag.
Qed.

(** *** Stages and flush stores *)

Lemma step_creates_flush_empty c h h' :
  creates_store c = true → step c h = Some h' →
  flush_stores_empty h → flush_stores_empty h'.
Proof.
  intros Hc Hstep Hinv.
  assert (Halloc : ∀ s0, (is_flush s0 = true → products_ s0 = ∅) →
                         flush_stores_empty (alloc s0 h).2).
  { intros s0 Hs0 a s Ha Hf. unfold alloc in Ha. simpl in Ha.
    destruct (decide (a < length h)) as [Hlt|Hge].
    - rewrite lookup_app_l in Ha by done. eauto.
    - rewrite lookup_app_r in Ha by lia.
      destruct (a - length h) as [|n]; simpl in Ha; [|done].
      injection Ha as <-. auto. }
  destruct c; simpl in Hc, Hstep; try done.
  - injection Hstep as <-. by apply Halloc.
  - unfold make_child in Hstep.
    destruct (h !! a) as [s|]; simpl in Hstep; [|done].
    injection Hstep as <-. by apply Halloc.
  - unfold make_child_stage in Hstep.
    destruct (h !! a) as [s|]; simpl in Hstep; [|done].
    injection Hstep as <-. by apply Halloc.
  - unfold make_continuation in Hstep.
    destruct (h !! a) as [s|]; simpl in Hstep; [|done].
    injection Hstep as <-. by apply Halloc.
  - unfold make_flush in Hstep.
    destruct (h !! a) as [s|]; simpl in Hstep; [|done].
    injection Hstep as <-. by apply Halloc.
Qed.

(** C8, as amended. Every store is in exactly one of the stages process and
    flush; [is_flush()] is true exactly when the stage is flush; the store
    [make_flush()] produces is a sibling of the store it is made off (same
    parent, same level identifier, a new object) with stage flush and an
    empty product map; every operation that creates a store leaves the
    flush stores of the heap without products; and [add_product], which does
    not look at the stage, adds a product to a store of either stage. *)
Theorem flush_stores_created_empty :
  (∀ s, (stage_ s = process ∨ stage_ s = flush) ∧
        ¬ (stage_ s = process ∧ stage_ s = flush)) ∧
  (∀ s, is_flush s = true ↔ stage_ s = flush) ∧
  (∀ h a s,
     h !! a = Some s →
     ∃ a' h' s',
       make_flush a h = Some (a', h') ∧
       h' !! a' = Some s' ∧
       stage_ s' = flush ∧ products_ s' = ∅ ∧
       parent_ s' = parent_ s ∧ id_ s' = id_ s ∧
       a' ≠ a ∧ h' !! a = Some s) ∧
  (∀ c h h',
     creates_store c = true → step c h = Some h' →
     flush_stores_empty h → flush_stores_empty h') ∧
  (∀ h a s key t,
     h !! a = Some s → products_ s !! key = None →
     ∃ h' s',
       add_product a key t h = Some h' ∧
       h' !! a = Some s' ∧
       stage_ s' = stage_ s ∧ products_ s' !! key = Some t).
Proof.
  split; [|split; [|split; [|split]]].
  - intros s. destruct (stage_ s); split; auto; intros [? ?]; done.
  - intros s. unfold is_flush. by destruct (stage_ s).
  - intros h a s Ha. unfold make_flush. rewrite Ha. simpl.
    eexists _, _, _. split; [reflexivity|].
    destruct (alloc_lookup_old
                {| parent_ := parent_ s; products_ := ∅; id_ := id_ s;
                   source_ := EmptyString; stage_ := flush |} h a s Ha)
      as [Hold Hne].
    split; [apply alloc_lookup_new|]. done.
  - apply step_creates_flush_empty.
  - intros h a s key t Ha Hkey. unfold add_product, products_add.
    rewrite Ha. simpl. rewrite Hkey. simpl.
    eexists _, _. split; [reflexivity|].
    rewrite list_lookup_insert_eq by (by eapply lookup_lt_Some).
    split; [reflexivity|]. simpl. by rewrite lookup_insert_eq.
Qed.

End product_store_spec.

(** *** The examples *)

Lemma sample_heap_well_formed : well_formed sample_heap.
Proof. apply reachable_well_formed. by exists sample_calls. Qed.

Lemma flush_heap_reachable : reachable flush_heap.
Proof. by exists flush_calls. Qed.

(** The job (0) is an ancestor of the event (2); the event and run 2 (3) are
    not comparable. *)
Lemma most_derived_prefers_descendant_witness :
  most_derived sample_heap [0; 2] = Some 2 ∧
  most_derived sample_heap [2; 3] = Some 3 ∧
  most_derived sample_heap [3; 2] = Some 2 ∧
  most_derived sample_heap [0; 2; 1] = Some 2.
Proof.
  destruct (most_derived_prefers_descendant sample_heap)
    as (Hanc & _ & Hinc & Hfold).
  split; [|split; [|split]].
  - apply Hanc; [exact sample_heap_well_formed|].
    by_evaluation.
  - apply Hinc; by_evaluation.
  - apply Hinc; by_evaluation.
  - rewrite Hfold. vm_compute. reflexivity.
Defined.

(** Run 1 owns [n]: asked from its event, [store_for_product] finds the
    event or an ancestor of it. *)
Lemma store_for_product_finds_owner_witness :
  ∃ found t,
    store_for_product sample_heap "n" 2 = Some (Some found) ∧
    (found = 2 ∨ found ∈ ancestors sample_heap 2) ∧
    sample_heap !! found = Some t ∧ contains_product t "n" = true.
Proof.
  destruct (store_for_product_finds_owner sample_heap "n" sample_heap_well_formed)
    as [Hfound _].
  eapply (Hfound 1 _ 2).
  - vm_compute. reflexivity.
  - vm_compute. reflexivity.
  - right. by_evaluation.
Defined.

(** A continuation of the event with a new product. *)
Lemma make_continuation_keeps_level_witness :
  ∃ a' h' s',
    make_continuation 2 "double" {["y" := 6%Z]} sample_heap = Some (a', h') ∧
    h' !! a' = Some s' ∧
    id_ s' = [("job", 0%N); ("run", 1%N); ("event", 1%N)] ∧
    parent_ s' = Some 1 ∧
    products_ s' = {["y" := 6%Z]}.
Proof.
  destruct (make_continuation_keeps_level sample_heap 2 _ "double" {["y" := 6%Z]}
              eq_refl)
    as (a' & h' & s' & Hmake & Hnew & Hid & Hparent & _ & Hproducts & _).
  exists a', h', s'. split; [exact Hmake|]. split; [exact Hnew|].
  split; [exact Hid|]. split; [exact Hparent|exact Hproducts].
Defined.

(** The job, a flush store made off it, and [add_product] on the flush store:
    a flush store that carries a product. *)
Lemma flush_store_with_product :
  ¬ (∀ h : list (product_store Z), reachable h → flush_stores_empty h).
Proof.
  intros Hall. specialize (Hall flush_heap flush_heap_reachable).
  assert (Hs : flush_heap !! 1 =
               Some {| parent_ := None; products_ := {["x" := 7%Z]};
                       id_ := base_id; source_ := EmptyString;
                       stage_ := flush |}).
  { vm_compute. reflexivity. }
  specialize (Hall _ _ Hs eq_refl). simpl in Hall.
  apply (f_equal (λ m : gmap string Z, m !! "x")) in Hall.
  by rewrite lookup_singleton_eq, lookup_empty in Hall.
Qed.

(** A flush store made off run 1 of the sample hierarchy. *)
Lemma flush_stores_created_empty_witness :
  ∃ a' h' s',
    make_flush 1 sample_heap = Some (a', h') ∧
    h' !! a' = Some s' ∧
    is_flush s' = true ∧ products_ s' = ∅ ∧ parent_ s' = Some 0.
Proof.
  destruct (flush_stores_created_empty (product := Z))
    as (_ & Hflush & Hmake & _).
  destruct (Hmake sample_heap 1 _ eq_refl)
    as (a' & h' & s' & Hres & Hnew & Hstage & Hproducts & Hparent & _).
  exists a', h', s'. split; [exact Hres|]. split; [exact Hnew|].
  split; [by apply Hflush|]. split; [exact Hproducts|exact Hparent].
Defined.

End ProductStoreSpec.

(** ** FORM *)

Module FormSpec.
Import Form.

Implicit Types (st : form_interface) (pb : product_base).
Implicit Types (rest : list product_base).

Lemma bind_returns {A B} (a : action A) (f : A → action B) st x st' :
  a st = (inr x, st') → (a ≫= f) st = f x st'.
Proof. unfold mbind, action_bind. by intros ->. Qed.

Lemma bind_throws {A B} (a : action A) (f : A → action B) st msg st' :
  a st = (inl msg, st') → (a ≫= f) st = (inl msg, st').
Proof. unfold mbind, action_bind. by intros ->. Qed.

(** [names[t]] never fails, and what it changes is invisible to later
    [names[...]]. *)
Lemma names_at_spec t st :
  ∃ st', names_at t st = (inr (default EmptyString (m_type_map st !! t)), st') ∧
         same_but_names st st'.
Proof.
  unfold names_at. destruct (m_type_map st !! t) as [name|] eqn:Ht.
  - by exists st.
  - eexists; split; [reflexivity|]. split; [done|]. split; [done|].
    intros pb. unfold type_name. simpl.
    destruct (decide (t = type pb)) as [->|Hne].
    + by rewrite lookup_insert_eq, Ht.
    + by rewrite lookup_insert_ne.
Qed.

Lemma collect_products_spec rest products st :
  ∃ products' st',
    collect_products rest products st = (inr products', st') ∧
    same_but_names st st'.
Proof.
  revert products st. induction rest as [|pb rest IH]; intros products st.
  - by exists products, st.
  - simpl.
    destruct (names_at_spec (type pb) st) as (st1 & Hn & H1 & H2 & H3).
    rewrite (bind_returns _ _ _ _ _ Hn).
    destruct (IH (insert_new (label pb)
                    (default EmptyString (m_type_map st !! type pb)) products) st1)
      as (ps & st2 & -> & H4 & H5 & H6).
    exists ps, st2. split; [done|].
    split; [congruence|]. split; [congruence|].
    intros pb'. by rewrite H6, H3.
Qed.

Lemma register_writes_names creator st st' rest :
  (∀ pb, type_name st' pb = type_name st pb) →
  register_writes creator st' rest = register_writes creator st rest.
Proof.
  intros Hn. unfold register_writes. apply list_fmap_ext. intros _ pb _.
  f_equal. apply Hn.
Qed.

(** The second loop: one [registerWrite] for each element, in order. *)
Lemma register_loop_spec creator rest st :
  ∃ st',
    for_each (λ pb, ty ← names_at (type pb);
                    call (registerWrite creator (label pb) (data pb) ty))
             rest st = (inr tt, st') ∧
    m_pers st' = m_pers st ++ register_writes creator st rest ∧
    m_product_to_config st' = m_product_to_config st ∧
    ∀ pb, type_name st' pb = type_name st pb.
Proof.
  revert st. induction rest as [|pb rest IH]; intros st.
  - exists st. simpl. by rewrite app_nil_r.
  - simpl.
    destruct (names_at_spec (type pb) st) as (st1 & Hn & H1 & H2 & H3).
    erewrite bind_returns;
      [|erewrite bind_returns; [reflexivity|exact Hn]].
    unfold call at 1. cbv beta.
    match goal with |- context [for_each _ rest ?s] =>
      destruct (IH s) as (st2 & Hf & H4 & H5 & H6) end.
    exists st2. split; [exact Hf|]. simpl in *. split; [|split].
    + rewrite H4, H1, <- app_assoc. simpl. do 2 f_equal.
      apply register_writes_names. intros pb'. by rewrite <- H3.
    + congruence.
    + intros pb'. rewrite H6. by rewrite <- H3.
Qed.

Lemma filter_register_writes creator st rest :
  filter is_registerWrite (register_writes creator st rest)
    = register_writes creator st rest.
Proof.
  induction rest as [|x l IHl]; [done|]. simpl.
  rewrite filter_cons_True by done. by rewrite IHl.
Qed.

Lemma filter_commit_register_writes creator st rest :
  filter is_commitOutput (register_writes creator st rest) = [].
Proof.
  induction rest as [|x l IHl]; [done|]. simpl.
  by rewrite filter_cons_False by (cbn; intros []).
Qed.

(** C10. [form_interface::write(creator, batch)]: on an empty batch it
    returns and calls nothing; on a batch whose first element has a product
    label that is configured it calls [createContainers] once, then
    [registerWrite] once for each element of the batch, in order, then
    [commitOutput] once, for the id of the first element; and it throws,
    having called nothing, exactly when the label of the first element is
    not configured, whatever the other elements are. *)
Theorem write_batch_calls creator batch st :
  (batch = [] → write_batch creator batch st = (inr tt, st)) ∧
  (∀ first rest, batch = first :: rest →
     match m_product_to_config st !! label first with
     | None =>
         write_batch creator batch st
           = (inl (no_configuration (label first)), st)
     | Some _ =>
         ∃ products st',
           write_batch creator batch st = (inr tt, st') ∧
           m_pers st' =
             m_pers st ++ createContainers creator products
                       :: register_writes creator st batch
                       ++ [commitOutput creator (id first)] ∧
           length (filter is_registerWrite (drop (length (m_pers st)) (m_pers st')))
             = length batch ∧
           length (filter is_commitOutput (drop (length (m_pers st)) (m_pers st')))
             = 1
     end).
Proof.
  split; [by intros ->|].
  intros first rest ->. unfold write_batch.
  erewrite bind_returns by reflexivity.
  destruct (m_product_to_config st !! label first) as [item|]; [|done].
  set (batch := first :: rest).
  destruct (collect_products_spec batch ∅ st) as (ps & st1 & Hc & H1 & H2 & H3).
  erewrite bind_returns by exact Hc.
  erewrite bind_returns by reflexivity.
  match goal with |- context [for_each _ batch ≫= _] =>
    match goal with |- context [_ ?s = _] =>
    destruct (register_loop_spec creator batch s) as (st2 & Hr & H4 & H5 & H6);
    assert (Hw : register_writes creator s batch = register_writes creator st batch)
      by (apply register_writes_names; exact H3)
    end end.
  erewrite bind_returns by exact Hr.
  cbn [m_pers] in H4.
  eexists ps, _. split; [reflexivity|]. cbn [m_pers].
  assert (Hnew : m_pers st2 ++ [commitOutput creator (id first)] =
                 m_pers st ++ createContainers creator ps
                   :: register_writes creator st batch
                   ++ [commitOutput creator (id first)]).
  { rewrite H4, Hw, H1, <- !app_assoc. done. }
  rewrite Hnew. split; [done|]. rewrite drop_app_length.
  rewrite !filter_cons_False by (cbn; intros []).
  rewrite !filter_app, filter_register_writes, filter_commit_register_writes.
  rewrite filter_cons_False by (cbn; intros []).
  rewrite filter_cons_True by done.
  rewrite !filter_nil, app_nil_r. cbn [length app].
  unfold register_writes. rewrite length_fmap. done.
Qed.

(** One segment of the toy writer: three products, one commit. *)
Lemma write_batch_calls_witness :
  ∃ products st',
    write_batch "Toy_Tracker" toy_batch toy_form = (inr tt, st') ∧
    drop 2 (m_pers st') =
      [ createContainers "Toy_Tracker" products;
        registerWrite "Toy_Tracker" "trackStart" 100%N "std::vector<float>";
        registerWrite "Toy_Tracker" "trackNumberHits" 200%N "std::vector<int>";
        registerWrite "Toy_Tracker" "trackStartPoints" 300%N
          "std::vector<TrackStart>";
        commitOutput "Toy_Tracker" "[EVENT=00000000;SEG=00000000]" ].
Proof.
  destruct (write_batch_calls "Toy_Tracker" toy_batch toy_form) as [_ Hrun].
  specialize (Hrun _ _ eq_refl).
  assert (Hcfg : is_Some (m_product_to_config toy_form !! "trackStart"))
    by (vm_compute; eauto).
  destruct Hcfg as [item Hitem].
  change (label _) with "trackStart" in Hrun. rewrite Hitem in Hrun.
  destruct Hrun as (products & st' & Hw & Hcalls & _).
  exists products, st'. split; [exact Hw|]. rewrite Hcalls. reflexivity.
Defined.

(** [form_interface::write(creator, pb)] for one product: when the label of
    the product is configured it calls [createContainers] for that one
    product, [registerWrite] and [commitOutput] for the id of the product,
    in this order; when it is not, it throws and calls nothing. *)
Theorem write_calls creator pb st :
  match m_product_to_config st !! label pb with
  | None => write creator pb st = (inl (no_configuration (label pb)), st)
  | Some _ =>
      ∃ st',
        write creator pb st = (inr tt, st') ∧
        m_pers st' =
          m_pers st ++
          [ createContainers creator {[label pb := type_name st pb]};
            registerWrite creator (label pb) (data pb) (type_name st pb);
            commitOutput creator (id pb) ] ∧
        m_product_to_config st' = m_product_to_config st
  end.
Proof.
  unfold write. erewrite bind_returns by reflexivity.
  destruct (m_product_to_config st !! label pb) as [item|]; [|done].
  destruct (names_at_spec (type pb) st) as (st1 & Hn & H1 & H2 & H3).
  erewrite bind_returns by exact Hn.
  erewrite bind_returns by reflexivity.
  erewrite bind_returns by reflexivity.
  eexists; split; [reflexivity|]. simpl.
  rewrite H1, H2, <- !app_assoc. done.
Qed.

(** A second [names[t]] finds what the first one left. *)
Lemma names_at_again t st st' name :
  names_at t st = (inr name, st') →
  ∀ calls, names_at t {| m_pers := calls; m_type_map := m_type_map st';
                         m_product_to_config := m_product_to_config st' |}
           = (inr name, {| m_pers := calls; m_type_map := m_type_map st';
                           m_product_to_config := m_product_to_config st' |}).
Proof.
  unfold names_at. destruct (m_type_map st !! t) as [n|] eqn:Ht.
  - intros [= <- <-] calls. simpl. by rewrite Ht.
  - intros [= <- <-] calls. simpl. by rewrite lookup_insert_eq.
Qed.

(** The batch [write] of a batch of one product does what the [write] of
    that product does: the same outcome, the same calls, the same state. *)
Theorem write_batch_singleton creator pb st :
  write_batch creator [pb] st = write creator pb st.
Proof.
  unfold write_batch, write.
  erewrite !(bind_returns (find_config (label pb))) by reflexivity.
  destruct (m_product_to_config st !! label pb) as [item|]; [|done].
  simpl collect_products. simpl for_each.
  destruct (names_at (type pb) st) as [[msg|name] st1] eqn:Hn.
  { destruct (names_at_spec (type pb) st) as (? & Hn' & _). congruence. }
  erewrite (bind_returns (names_at (type pb) ≫= _));
    [|erewrite bind_returns by exact Hn; reflexivity].
  erewrite (bind_returns (names_at (type pb))) by exact Hn.
  unfold insert_new. rewrite lookup_empty, insert_empty.
  erewrite !(bind_returns (call (createContainers _ _))) by reflexivity.
  erewrite (bind_returns (_ ≫= _)).
  2:{ erewrite bind_returns.
      2:{ erewrite bind_returns by (apply (names_at_again _ _ _ _ Hn)).
          reflexivity. }
      reflexivity. }
  erewrite (bind_returns (call (registerWrite _ _ _ _))) by reflexivity.
  reflexivity.
Qed.

Lemma product_table_lookup items acc l :
  foldl (λ m item, insert_new (product_name item) item m) acc items !! l
    = match acc !! l with
      | Some item => Some item
      | None => snd <$> list_find (λ item, product_name item = l) items
      end.
Proof.
  revert acc. induction items as [|item items IH]; intros acc; simpl.
  - by destruct (acc !! l).
  - rewrite IH. unfold insert_new.
    destruct (acc !! product_name item) as [old|] eqn:Hold.
    + destruct (acc !! l) as [x|] eqn:Hl; [done|].
      case_decide as Heq; [congruence|].
      by destruct (list_find _ items) as [[? ?]|].
    + destruct (decide (product_name item = l)) as [<-|Hne].
      * by rewrite lookup_insert_eq, Hold.
      * rewrite lookup_insert_ne by done.
        destruct (acc !! l) as [x|]; [done|].
        by destruct (list_find _ items) as [[? ?]|].
Qed.

(** The lookup table the constructor of [form_interface] builds answers as
    [parse_config::findItem] does: with the first item configured under the
    product name, or with nothing. *)
Theorem product_table_is_findItem tm config l :
  m_product_to_config (make_form_interface tm config) !! l = findItem l config.
Proof.
  unfold make_form_interface, findItem. simpl.
  rewrite product_table_lookup, lookup_empty.
  by destruct (list_find _ _) as [[? ?]|].
Qed.

End FormSpec.

(** ** Sequences of registration statements *)

Module RegistrarSequenceSpec.
Import Registrar RegistrarSpec.

Section registrar_sequence_spec.
Context {Node : Type} `{!NodeLike Node} `{!ErrorText}.
Implicit Types (r : registrar Node) (e : env Node) (s : statement Node).
Implicit Types (ss : list (statement Node)).

(** One statement: a new entry, or a message. *)
Lemma run_statement_cases s e :
  ∃ e', run_statement s e = Some e' ∧
        creator_log e' = creator_log e ++ [statement_arguments s] ∧
        match nodes e !! statement_name s with
        | None => nodes e' = <[statement_name s := declared_node s]> (nodes e) ∧
                  errors e' = errors e
        | Some _ => nodes e' = nodes e ∧
                    errors e' = errors e ++ [duplicate_message (statement_name s)]
        end.
Proof.
  rewrite run_statement_unfold. eexists; split; [reflexivity|].
  cbn [creator_log nodes errors]. split; [done|]. unfold statement_name.
  destruct (nodes e !! full_name (declared_node s)) as [first|] eqn:Hname.
  - by rewrite (try_emplace_present _ _ _ _ Hname).
  - by rewrite (try_emplace_fresh _ _ _ Hname).
Qed.


(** A sequence of registration statements always runs to its end, and every
    statement is accounted for: it either adds one entry to the catalog or
    one message to the error vector, so the entries and the messages grow
    by the number of statements together. Nothing is taken out of the
    catalog or of the error vector, and every creator is called once, in
    the order of the statements. *)
Theorem statements_accounted ss e :
  ∃ e', run_statements ss e = Some e' ∧
        size (nodes e') + length (errors e')
          = size (nodes e) + length (errors e) + length ss ∧
        creator_log e' = creator_log e ++ (statement_arguments <$> ss) ∧
        nodes e ⊆ nodes e' ∧
        errors e `prefix_of` errors e'.
Proof.
  revert e. induction ss as [|s ss IH]; intros e.
  - exists e. simpl. rewrite app_nil_r. split; [done|]. split; [lia|]. done.
  - destruct (run_statement_cases s e) as (e1 & Hs & Hlog & Hcase).
    destruct (IH e1) as (e' & Hss & Hcount & Hlog' & Hsub & Hpre).
    exists e'. cbn [run_statements]. rewrite Hs. cbn.
    split; [exact Hss|]. rewrite Hlog', Hlog, <- app_assoc.
    destruct (nodes e !! statement_name s) as [first|] eqn:Hname.
    + destruct Hcase as [Hn He]. rewrite Hn, He in *. rewrite length_app in Hcount.
      cbn in *. split; [lia|]. split; [done|]. split; [done|].
      etrans; [|exact Hpre]. by apply prefix_app_r.
    + destruct Hcase as [Hn He]. rewrite Hn, He in *.
      rewrite map_size_insert_None in Hcount by done.
      cbn in *. split; [lia|]. split; [done|]. split; [|done].
      etrans; [|exact Hsub]. by apply insert_subseteq.
Qed.



End registrar_sequence_spec.
End RegistrarSequenceSpec.

(** ** The registrar without a creator, and the registration API *)

Module RegistrationApiSpec.
Import Registrar RegistrarSpec GraphProxy.

Section registrar_edge.
Context {Node : Type} `{!NodeLike Node} `{!ErrorText}.
Implicit Types (r : registrar Node) (e : env Node).

(** A registrar without a creator: [output_products] fails the assertion of
    [create_node] and the destructor does nothing. A registrar is without a
    creator until [input_family] sets one, and again once [output_products]
    has fired it: a second [output_products] on the same registrar fails
    the assertion, and the destructor that follows the first changes
    nothing. *)
Theorem output_products_takes_the_creator :
  (∀ r e ops,
     creator_ r = None →
     set_output_products ops r e = None ∧ destroy r e = Some e) ∧
  (∀ e ops,
     set_output_products ops (new_registrar (Node := Node)) e = None) ∧
  (∀ (c : node_creator Node) r0 e ops ops',
     ∃ r' e',
       set_output_products ops (set_creator c r0) e = Some (r', e') ∧
       set_output_products ops' r' e' = None ∧
       destroy r' e' = Some e').
Proof.
  assert (Hnone : ∀ r e ops,
            creator_ r = None →
            set_output_products ops r e = None ∧ destroy r e = Some e).
  { intros r e ops Hc. unfold set_output_products, destroy.
    by rewrite (create_node_no_creator _ _ _ Hc), Hc. }
  split; [exact Hnone|]. split; [intros e ops; by apply Hnone|].
  intros c r0 e ops ops'. unfold set_output_products at 1.
  rewrite (create_node_unfold _ _ _ c) by done.
  eexists _, _. split; [reflexivity|]. by apply Hnone.
Qed.

End registrar_edge.

Section registration_api_spec.
Context {configuration AlgorithmBits : Type}.
Context `{!AlgorithmNaming configuration}.
Context `{!NodeLike (hof_node AlgorithmBits)} `{!ErrorText}.
Implicit Types (e : env (hof_node AlgorithmBits)).

(** A statement through [registration_api] declares the node with the name
    [make_algorithm_name] gives, the permits of the concurrency, the
    predicates of [when] and the input labels of the statement. A node type
    that declares no output products ([M = 0]) is constructed without them:
    whatever list [output_products(...)] passes, the statement declares the
    node it declares without that call, and leaves the same catalog and the
    same errors. A node type that declares output products is constructed
    with the list of the statement, the empty list when [output_products] is
    not called. *)
Theorem registration_without_outputs (M : N) (config : option configuration)
    name (alg : AlgorithmBits) c inputs when ops e :
  ∃ creator,
    creator_ (registration_input_family M (make_registration config name alg c)
                inputs) = Some creator ∧
    let s outs := {| st_creator := creator; st_when := when;
                     st_output_products := outs |} in
    hn_name (declared_node (s ops)) = make_algorithm_name config name ∧
    hn_concurrency (declared_node (s ops)) = value c ∧
    hn_predicates (declared_node (s ops)) = default [] when ∧
    hn_input_labels (declared_node (s ops)) = inputs ∧
    hn_output_products (declared_node (s ops))
      = (if decide (M = 0%N) then None else Some (default [] ops)) ∧
    (M = 0%N →
       declared_node (s ops) = declared_node (s None) ∧
       nodes <$> run_statement (s ops) e = nodes <$> run_statement (s None) e ∧
       errors <$> run_statement (s ops) e
         = errors <$> run_statement (s None) e).
Proof.
  unfold registration_input_family.
  destruct (decide (M = 0%N)) as [HM|HM].
  - eexists; split; [reflexivity|]. cbv zeta. do 5 (split; [done|]).
    intros _. split; [done|]. rewrite !run_statement_unfold. done.
  - eexists; split; [reflexivity|]. cbv zeta. do 5 (split; [done|]). done.
Qed.

End registration_api_spec.
End RegistrationApiSpec.

(** ** FORM: the interface as a whole *)

Module FormInterfaceSpec.
Import Form FormSpec.

Implicit Types (st : form_interface) (pb : product_base).
Implicit Types (batch rest : list product_base) (tm : gmap type_index string).

(** *** The member functions in closed form *)

Lemma names_at_eq t st :
  names_at t st = (inr (default EmptyString (m_type_map st !! t)),
                   with_names st (name_missing t (m_type_map st))).
Proof.
  unfold names_at, name_missing, with_names.
  destruct (m_type_map st !! t); [by destruct st|done].
Qed.

Lemma name_missing_lookup t tm t' :
  name_missing t tm !! t' =
    match tm !! t' with
    | Some name => Some name
    | None => if decide (t' = t) then Some EmptyString else None
    end.
Proof.
  unfold name_missing. destruct (tm !! t) as [n|] eqn:Ht.
  - destruct (tm !! t') as [n'|] eqn:Ht'; [done|].
    case_decide; [congruence|done].
  - destruct (decide (t' = t)) as [->|Hne].
    + by rewrite lookup_insert_eq, Ht.
    + rewrite lookup_insert_ne by done. by destruct (tm !! t').
Qed.

Lemma name_missing_present t tm name :
  tm !! t = Some name → name_missing t tm = tm.
Proof. unfold name_missing. by intros ->. Qed.

Lemma names_after_lookup ts tm t' :
  foldl (λ m t, name_missing t m) tm ts !! t' =
    match tm !! t' with
    | Some name => Some name
    | None => if decide (t' ∈ ts) then Some EmptyString else None
    end.
Proof.
  revert tm. induction ts as [|t ts IH]; intros tm; simpl.
  - destruct (tm !! t'); [done|].
    destruct (decide (t' ∈ [])) as [Hin|]; [by apply elem_of_nil in Hin|done].
  - rewrite IH, name_missing_lookup.
    destruct (tm !! t') as [n|]; [done|].
    destruct (decide (t' = t)) as [->|Hne].
    + destruct (decide (t ∈ t :: ts)) as [|Hn]; [done|]. destruct Hn. by left.
    + destruct (decide (t' ∈ ts)) as [Hin|Hn].
      * destruct (decide (t' ∈ t :: ts)) as [|Hn]; [done|]. destruct Hn. by right.
      * destruct (decide (t' ∈ t :: ts)) as [[?|?]%elem_of_cons|]; done.
Qed.

Lemma names_after_default ts tm t' :
  default EmptyString (foldl (λ m t, name_missing t m) tm ts !! t')
    = default EmptyString (tm !! t').
Proof.
  rewrite names_after_lookup. destruct (tm !! t'); [done|]. by case_decide.
Qed.

Lemma names_after_twice ts tm :
  foldl (λ m t, name_missing t m) (foldl (λ m t, name_missing t m) tm ts) ts
    = foldl (λ m t, name_missing t m) tm ts.
Proof.
  apply map_eq. intros t'. rewrite (names_after_lookup ts (foldl _ _ _)).
  rewrite names_after_lookup. destruct (tm !! t'); [done|]. by case_decide.
Qed.

(** The first loop of the batch [write]. *)
Lemma collect_products_from batch acc st st0 :
  (∀ pb, type_name st pb = type_name st0 pb) →
  collect_products batch acc st =
    (inr (foldl (λ m pb, insert_new (label pb) (type_name st0 pb) m) acc batch),
     with_names st (foldl (λ m t, name_missing t m) (m_type_map st)
                      (type <$> batch))).
Proof.
  revert acc st. induction batch as [|pb batch IH]; intros acc st Hst.
  - simpl. by destruct st.
  - cbn [collect_products]. erewrite bind_returns by apply names_at_eq.
    rewrite (IH _ _).
    + simpl. rewrite <- Hst. done.
    + intros pb'. rewrite <- Hst. unfold type_name. simpl.
      rewrite name_missing_lookup.
      destruct (m_type_map st !! type pb'); [done|]. by case_decide.
Qed.

(** The second loop of the batch [write]. *)
Lemma register_loop_from creator batch st st0 :
  (∀ pb, type_name st pb = type_name st0 pb) →
  for_each (λ pb, ty ← names_at (type pb);
                  call (registerWrite creator (label pb) (data pb) ty))
           batch st =
    (inr tt,
     {| m_pers := m_pers st ++ register_writes creator st0 batch;
        m_type_map := foldl (λ m t, name_missing t m) (m_type_map st)
                        (type <$> batch);
        m_product_to_config := m_product_to_config st |}).
Proof.
  revert st. induction batch as [|pb batch IH]; intros st Hst.
  - simpl. rewrite app_nil_r. by destruct st.
  - cbn [for_each].
    erewrite bind_returns;
      [|erewrite bind_returns by apply names_at_eq; reflexivity].
    rewrite IH.
    + simpl. rewrite <- app_assoc. simpl. fold (type_name st pb).
      by rewrite Hst.
    + intros pb'. rewrite <- Hst. unfold type_name. simpl.
      rewrite name_missing_lookup.
      destruct (m_type_map st !! type pb'); [done|]. by case_decide.
Qed.

(** The three member functions on a product whose label is configured. *)
Lemma write_eq creator pb st item :
  m_product_to_config st !! label pb = Some item →
  write creator pb st =
    (inr tt,
     {| m_pers := m_pers st ++
          [ createContainers creator {[label pb := type_name st pb]};
            registerWrite creator (label pb) (data pb) (type_name st pb);
            commitOutput creator (id pb) ];
        m_type_map := name_missing (type pb) (m_type_map st);
        m_product_to_config := m_product_to_config st |}).
Proof.
  intros Hitem. unfold write. erewrite bind_returns by reflexivity.
  rewrite Hitem. erewrite bind_returns by apply names_at_eq.
  erewrite bind_returns by reflexivity.
  erewrite bind_returns by reflexivity.
  unfold call. simpl. by rewrite <- !app_assoc.
Qed.

Lemma read_eq creator pb st item :
  m_product_to_config st !! label pb = Some item →
  read creator pb st =
    (inr tt,
     {| m_pers := m_pers st ++
          [ read_call creator (label pb) (id pb) (type_name st pb) ];
        m_type_map := name_missing (type pb) (m_type_map st);
        m_product_to_config := m_product_to_config st |}).
Proof.
  intros Hitem. unfold read. erewrite bind_returns by reflexivity.
  rewrite Hitem. erewrite bind_returns by apply names_at_eq. done.
Qed.

Lemma write_batch_eq creator first rest st item :
  m_product_to_config st !! label first = Some item →
  write_batch creator (first :: rest) st =
    (inr tt,
     {| m_pers := m_pers st ++
          createContainers creator
            (foldl (λ m pb, insert_new (label pb) (type_name st pb) m) ∅
               (first :: rest))
          :: register_writes creator st (first :: rest)
          ++ [commitOutput creator (id first)];
        m_type_map := foldl (λ m t, name_missing t m) (m_type_map st)
                        (type <$> first :: rest);
        m_product_to_config := m_product_to_config st |}).
Proof.
  intros Hitem. unfold write_batch. erewrite bind_returns by reflexivity.
  rewrite Hitem.
  erewrite bind_returns by (by apply (collect_products_from _ _ _ st)).
  erewrite bind_returns by reflexivity.
  erewrite bind_returns.
  2:{ apply (register_loop_from _ _ _ st). intros pb.
      unfold type_name, with_names. cbn [m_type_map].
      apply names_after_default. }
  unfold call. cbn [m_pers m_type_map m_product_to_config with_names].
  rewrite names_after_twice, <- !app_assoc. done.
Qed.

(** The three member functions on a product whose label is not
    configured. *)
Lemma write_unconfigured creator pb st :
  m_product_to_config st !! label pb = None →
  write creator pb st = (inl (no_configuration (label pb)), st).
Proof.
  intros Hnone. unfold write. erewrite bind_returns by reflexivity.
  by rewrite Hnone.
Qed.

Lemma read_unconfigured creator pb st :
  m_product_to_config st !! label pb = None →
  read creator pb st = (inl (no_configuration (label pb)), st).
Proof.
  intros Hnone. unfold read. erewrite bind_returns by reflexivity.
  by rewrite Hnone.
Qed.

Lemma write_batch_unconfigured creator first rest st :
  m_product_to_config st !! label first = None →
  write_batch creator (first :: rest) st
    = (inl (no_configuration (label first)), st).
Proof.
  intros Hnone. unfold write_batch. erewrite bind_returns by reflexivity.
  by rewrite Hnone.
Qed.

Lemma insert_new_fold_lookup {A V} (k : A → string) (v : A → V) xs acc l :
  foldl (λ m x, insert_new (k x) (v x) m) acc xs !! l
    = match acc !! l with
      | Some y => Some y
      | None => (λ p, v p.2) <$> list_find (λ x, k x = l) xs
      end.
Proof.
  revert acc. induction xs as [|x xs IH]; intros acc; simpl.
  - by destruct (acc !! l).
  - rewrite IH. unfold insert_new.
    destruct (acc !! k x) as [old|] eqn:Hold.
    + destruct (acc !! l) as [y|] eqn:Hl; [done|].
      case_decide as Heq; [congruence|].
      by destruct (list_find _ xs) as [[? ?]|].
    + destruct (decide (k x = l)) as [<-|Hne].
      * by rewrite lookup_insert_eq, Hold.
      * rewrite lookup_insert_ne by done.
        destruct (acc !! l) as [y|]; [done|].
        by destruct (list_find _ xs) as [[? ?]|].
Qed.

Lemma filter_containers_register_writes creator st rest :
  filter is_createContainers (register_writes creator st rest) = [].
Proof.
  induction rest as [|x l IHl]; [done|]. simpl.
  by rewrite filter_cons_False by (cbn; intros []).
Qed.

(** *** Reading *)

(** [form_interface::read(creator, pb)]: when the label of the product is
    configured it makes one [read] call on the persistence layer, for the
    label, the id and the type name of the product; when it is not, it throws
    and calls nothing. *)
Theorem read_calls creator pb st :
  match m_product_to_config st !! label pb with
  | None => read creator pb st = (inl (no_configuration (label pb)), st)
  | Some _ =>
      ∃ st',
        read creator pb st = (inr tt, st') ∧
        m_pers st' =
          m_pers st ++ [read_call creator (label pb) (id pb) (type_name st pb)] ∧
        m_product_to_config st' = m_product_to_config st
  end.
Proof.
  destruct (m_product_to_config st !! label pb) as [item|] eqn:Hitem.
  - rewrite (read_eq _ _ _ _ Hitem). eexists; split; [reflexivity|]. done.
  - by apply read_unconfigured.
Qed.

(** *** What a request leaves *)



(** Whatever a request does, it leaves the configuration table as it was,
    only appends to the calls made on the persistence layer, and keeps every
    type name that is registered; what it may add to the type map is the
    empty name, for the type of a product of the request that had none. *)
Theorem requests_keep_names r st :
  let st' := (perform r st).2 in
  m_product_to_config st' = m_product_to_config st ∧
  (∃ calls, m_pers st' = m_pers st ++ calls) ∧
  (∀ t name, m_type_map st !! t = Some name → m_type_map st' !! t = Some name) ∧
  (∀ t, m_type_map st !! t = None →
        m_type_map st' !! t = None ∨
        (m_type_map st' !! t = Some EmptyString ∧ t ∈ type <$> products_of r)).
Proof.
  assert (Hsame : ∀ out,
    let st' := ((out, st) : (string + unit) * form_interface).2 in
    m_product_to_config st' = m_product_to_config st ∧
    (∃ calls, m_pers st' = m_pers st ++ calls) ∧
    (∀ t name, m_type_map st !! t = Some name → m_type_map st' !! t = Some name) ∧
    (∀ t, m_type_map st !! t = None →
          m_type_map st' !! t = None ∨
          (m_type_map st' !! t = Some EmptyString ∧ t ∈ type <$> products_of r))).
  { intros out. simpl. split; [done|]. split; [exists []; by rewrite app_nil_r|].
    split; [done|]. auto. }
  assert (Hnames : ∀ ts calls,
    ts = type <$> products_of r →
    let st' := {| m_pers := m_pers st ++ calls;
                  m_type_map := foldl (λ m t, name_missing t m) (m_type_map st) ts;
                  m_product_to_config := m_product_to_config st |} in
    m_product_to_config st' = m_product_to_config st ∧
    (∃ calls, m_pers st' = m_pers st ++ calls) ∧
    (∀ t name, m_type_map st !! t = Some name → m_type_map st' !! t = Some name) ∧
    (∀ t, m_type_map st !! t = None →
          m_type_map st' !! t = None ∨
          (m_type_map st' !! t = Some EmptyString ∧ t ∈ type <$> products_of r))).
  { intros ts calls -> st'. subst st'. cbn [m_product_to_config m_pers m_type_map].
    split; [done|]. split; [by eexists|]. split.
    - intros t name Ht. by rewrite names_after_lookup, Ht.
    - intros t Ht. rewrite names_after_lookup, Ht. case_decide; auto. }
  destruct r as [creator pb|creator batch|creator pb]; cbn [perform].
  - destruct (m_product_to_config st !! label pb) as [item|] eqn:Hitem.
    + rewrite (write_eq _ _ _ _ Hitem). by apply (Hnames [type pb]).
    + rewrite (write_unconfigured _ _ _ Hitem). apply Hsame.
  - destruct batch as [|first rest]; [apply (Hsame (inr tt))|].
    destruct (m_product_to_config st !! label first) as [item|] eqn:Hitem.
    + rewrite (write_batch_eq _ _ _ _ _ Hitem). by apply Hnames.
    + rewrite (write_batch_unconfigured _ _ _ _ Hitem). apply Hsame.
  - destruct (m_product_to_config st !! label pb) as [item|] eqn:Hitem.
    + rewrite (read_eq _ _ _ _ Hitem). by apply (Hnames [type pb]).
    + rewrite (read_unconfigured _ _ _ Hitem). apply Hsame.
Qed.

(** A product whose type has no name in the type map is written, and read,
    all the same: [names[type]] puts the empty name under the type, the
    product goes to the persistence layer with the empty type name, and the
    empty name stays in the type map that the interface shares with its
    user. *)
Theorem unnamed_type_gets_empty_name creator pb st :
  is_Some (m_product_to_config st !! label pb) →
  m_type_map st !! type pb = None →
  (∃ st', write creator pb st = (inr tt, st') ∧
          registerWrite creator (label pb) (data pb) EmptyString ∈ m_pers st' ∧
          m_type_map st' = <[type pb := EmptyString]> (m_type_map st)) ∧
  (∃ st', read creator pb st = (inr tt, st') ∧
          read_call creator (label pb) (id pb) EmptyString ∈ m_pers st' ∧
          m_type_map st' = <[type pb := EmptyString]> (m_type_map st)).
Proof.
  intros [item Hitem] Hnone.
  rewrite (write_eq _ _ _ _ Hitem), (read_eq _ _ _ _ Hitem).
  unfold type_name, name_missing. rewrite Hnone. cbn [default].
  split; (eexists; split; [reflexivity|]); cbn [m_pers m_type_map];
    (split; [|done]); apply elem_of_app; right.
  - apply elem_of_cons. right. by left.
  - by left.
Qed.

(** The toy interface knows the types 1, 2 and 3; a product of type 9 is
    written with the empty type name. *)
Lemma unnamed_type_gets_empty_name_witness :
  ∃ st',
    write "Toy_Tracker"
      {| label := "trackStart"; id := "[EVENT=00000000;SEG=00000000]";
         data := 100%N; type := 9%N |} toy_form = (inr tt, st') ∧
    registerWrite "Toy_Tracker" "trackStart" 100%N EmptyString ∈ m_pers st' ∧
    m_type_map st' !! 9%N = Some EmptyString.
Proof.
  destruct (unnamed_type_gets_empty_name "Toy_Tracker"
              {| label := "trackStart"; id := "[EVENT=00000000;SEG=00000000]";
                 data := 100%N; type := 9%N |} toy_form)
    as [(st' & Hw & Hin & Hmap) _].
  - vm_compute. eauto.
  - vm_compute. reflexivity.
  - exists st'. split; [exact Hw|]. split; [exact Hin|].
    rewrite Hmap. apply lookup_insert_eq.
Defined.

(** *** The batch write *)

(** The map of products the batch [write] hands to [createContainers]: its
    one call of [createContainers] carries, for every label of the batch, the
    type name of the first product of the batch with that label, and nothing
    for any other label. *)
Theorem batch_containers_first_type creator first rest st :
  is_Some (m_product_to_config st !! label first) →
  ∃ products st',
    write_batch creator (first :: rest) st = (inr tt, st') ∧
    filter is_createContainers (drop (length (m_pers st)) (m_pers st'))
      = [createContainers creator products] ∧
    ∀ l, products !! l =
           (λ p, type_name st p.2)
             <$> list_find (λ pb, label pb = l) (first :: rest).
Proof.
  intros [item Hitem]. rewrite (write_batch_eq _ _ _ _ _ Hitem).
  eexists _, _. split; [reflexivity|]. cbn [m_pers]. split.
  - rewrite drop_app_length. rewrite filter_cons_True by done.
    rewrite filter_app, filter_containers_register_writes.
    by rewrite filter_cons_False by (cbn; intros []).
  - intros l. by rewrite insert_new_fold_lookup, lookup_empty.
Qed.

(** One segment of the toy writer: the map has the three labels of the
    batch, not the fourth that is configured. *)
Lemma batch_containers_first_type_witness :
  ∃ products st',
    write_batch "Toy_Tracker" toy_batch toy_form = (inr tt, st') ∧
    filter is_createContainers (drop 2 (m_pers st'))
      = [createContainers "Toy_Tracker" products] ∧
    products !! "trackNumberHits" = Some "std::vector<int>" ∧
    products !! "trackStartX" = None.
Proof.
  destruct (batch_containers_first_type "Toy_Tracker"
              {| label := "trackStart"; id := "[EVENT=00000000;SEG=00000000]";
                 data := 100%N; type := 1%N |}
              (tail toy_batch) toy_form)
    as (products & st' & Hw & Hc & Hp).
  { vm_compute. eauto. }
  exists products, st'. split; [exact Hw|]. split; [exact Hc|].
  split; rewrite Hp; vm_compute; reflexivity.
Defined.

(** The batch [write] looks up the configuration of the first product only:
    when that one is configured, a later product of the batch whose label is
    not configured is registered for writing all the same, although the
    [write] of that product alone throws. *)
Theorem batch_checks_first_label_only creator first rest pb st :
  is_Some (m_product_to_config st !! label first) →
  pb ∈ rest →
  m_product_to_config st !! label pb = None →
  (∃ st', write_batch creator (first :: rest) st = (inr tt, st') ∧
          registerWrite creator (label pb) (data pb) (type_name st pb)
            ∈ m_pers st') ∧
  write creator pb st = (inl (no_configuration (label pb)), st).
Proof.
  intros [item Hitem] Hin Hnone. split; [|by apply write_unconfigured].
  rewrite (write_batch_eq _ _ _ _ _ Hitem).
  eexists; split; [reflexivity|]. cbn [m_pers].
  apply elem_of_app. right. apply elem_of_cons. right.
  apply elem_of_app. left. unfold register_writes.
  apply (list_elem_of_fmap_2
           (λ pb, registerWrite creator (label pb) (data pb) (type_name st pb))).
  by right.
Qed.

(** "vertex" is not configured: behind "trackStart" in a batch it is
    registered for writing, alone it is refused. *)
Lemma batch_checks_first_label_only_witness :
  (∃ st',
     write_batch "Toy_Tracker"
       [ {| label := "trackStart"; id := "[EVENT=00000000;SEG=00000000]";
            data := 100%N; type := 1%N |};
         {| label := "vertex"; id := "[EVENT=00000000;SEG=00000000]";
            data := 400%N; type := 1%N |} ] toy_form = (inr tt, st') ∧
     registerWrite "Toy_Tracker" "vertex" 400%N "std::vector<float>"
       ∈ m_pers st') ∧
  write "Toy_Tracker"
    {| label := "vertex"; id := "[EVENT=00000000;SEG=00000000]";
       data := 400%N; type := 1%N |} toy_form
    = (inl "No configuration found for product: vertex", toy_form).
Proof.
  apply (batch_checks_first_label_only "Toy_Tracker"
           {| label := "trackStart"; id := "[EVENT=00000000;SEG=00000000]";
              data := 100%N; type := 1%N |}
           [ {| label := "vertex"; id := "[EVENT=00000000;SEG=00000000]";
                data := 400%N; type := 1%N |} ]
           {| label := "vertex"; id := "[EVENT=00000000;SEG=00000000]";
              data := 400%N; type := 1%N |} toy_form).
  - vm_compute. eauto.
  - by left.
  - vm_compute. reflexivity.
Defined.

Lemma single_writes_cons creator st pb batch :
  single_writes creator st (pb :: batch) =
    [ createContainers creator {[label pb := type_name st pb]};
      registerWrite creator (label pb) (data pb) (type_name st pb);
      commitOutput creator (id pb) ] ++ single_writes creator st batch.
Proof. reflexivity. Qed.

(** [write] on the products of a batch, one after the other. *)
Lemma write_each_from creator batch st st0 :
  (∀ pb, type_name st pb = type_name st0 pb) →
  Forall (λ pb, is_Some (m_product_to_config st !! label pb)) batch →
  for_each (write creator) batch st =
    (inr tt,
     {| m_pers := m_pers st ++ single_writes creator st0 batch;
        m_type_map := foldl (λ m t, name_missing t m) (m_type_map st)
                        (type <$> batch);
        m_product_to_config := m_product_to_config st |}).
Proof.
  revert st. induction batch as [|pb batch IH]; intros st Hst Hall.
  - simpl. rewrite app_nil_r. by destruct st.
  - apply Forall_cons in Hall as [[item Hitem] Hall]. cbn [for_each].
    erewrite bind_returns by exact (write_eq _ _ _ _ Hitem).
    rewrite IH.
    + cbn [m_pers m_type_map m_product_to_config fmap list_fmap foldl].
      rewrite <- app_assoc. by rewrite Hst.
    + intros pb'. rewrite <- Hst. unfold type_name. simpl.
      rewrite name_missing_lookup.
      destruct (m_type_map st !! type pb'); [done|]. by case_decide.
    + done.
Qed.

Lemma filter_single_writes creator st batch :
  filter is_registerWrite (single_writes creator st batch)
    = register_writes creator st batch ∧
  length (filter is_commitOutput (single_writes creator st batch)) = length batch ∧
  length (filter is_createContainers (single_writes creator st batch))
    = length batch.
Proof.
  induction batch as [|pb batch (IH1 & IH2 & IH3)]; [done|].
  rewrite single_writes_cons, !filter_app, IH1, !length_app, IH2, IH3.
  done.
Qed.

(** Writing the products of a batch one by one against writing the batch,
    when all its labels are configured: both register the same products for
    writing, in the same order and with the same type names, and leave the
    same type map; the single writes create containers and commit once for
    every product, the batch once in all. *)
Theorem batch_against_single_writes creator batch st :
  batch ≠ [] →
  Forall (λ pb, is_Some (m_product_to_config st !! label pb)) batch →
  ∃ st1 st2,
    for_each (write creator) batch st = (inr tt, st1) ∧
    write_batch creator batch st = (inr tt, st2) ∧
    let new1 := drop (length (m_pers st)) (m_pers st1) in
    let new2 := drop (length (m_pers st)) (m_pers st2) in
    filter is_registerWrite new1 = register_writes creator st batch ∧
    filter is_registerWrite new2 = register_writes creator st batch ∧
    length (filter is_commitOutput new1) = length batch ∧
    length (filter is_commitOutput new2) = 1 ∧
    length (filter is_createContainers new1) = length batch ∧
    length (filter is_createContainers new2) = 1 ∧
    m_type_map st1 = m_type_map st2.
Proof.
  intros Hne Hall. destruct batch as [|first rest]; [done|].
  rewrite (write_each_from _ _ _ st) by done.
  pose proof Hall as [[item Hitem] _]%Forall_cons.
  rewrite (write_batch_eq _ _ _ _ _ Hitem).
  eexists _, _. split; [reflexivity|]. split; [reflexivity|].
  cbn [m_pers m_type_map]. rewrite !drop_app_length.
  destruct (filter_single_writes creator st (first :: rest)) as (H1 & H2 & H3).
  rewrite H1, H2, H3.
  rewrite !filter_cons_False by (cbn; intros []).
  rewrite filter_cons_True by done.
  rewrite !filter_app, filter_register_writes, filter_commit_register_writes,
    filter_containers_register_writes.
  rewrite app_nil_l. cbn [filter list_filter].
  rewrite !decide_False by (cbn; intros []).
  rewrite app_nil_r. done.
Qed.

(** One segment of the toy writer, product by product and as a batch. *)
Lemma batch_against_single_writes_witness :
  ∃ st1 st2,
    for_each (write "Toy_Tracker") toy_batch toy_form = (inr tt, st1) ∧
    write_batch "Toy_Tracker" toy_batch toy_form = (inr tt, st2) ∧
    filter is_registerWrite (drop 2 (m_pers st1))
      = filter is_registerWrite (drop 2 (m_pers st2)) ∧
    length (filter is_commitOutput (drop 2 (m_pers st1))) = 3 ∧
    length (filter is_commitOutput (drop 2 (m_pers st2))) = 1.
Proof.
  destruct (batch_against_single_writes "Toy_Tracker" toy_batch toy_form)
    as (st1 & st2 & H1 & H2 & Hr1 & Hr2 & Hc1 & Hc2 & _).
  - discriminate.
  - repeat apply Forall_cons_2; [vm_compute; eauto..|apply Forall_nil_2].
  - exists st1, st2. split; [exact H1|]. split; [exact H2|].
    split; [exact (eq_trans Hr1 (eq_sym Hr2))|]. split; [exact Hc1|exact Hc2].
Defined.

End FormInterfaceSpec.

(** ** FORM: the configuration *)

Module ParseConfigSpec.
Import Form FormSpec FormInterfaceSpec.

Implicit Types (c : parse_config) (m : map_t).

Lemma setting_table_add tech name key value m tech' name' :
  setting_table tech' name' (add_setting tech name key value m) =
    setting_table tech' name' m ++
    (if decide (tech = tech' ∧ name = name') then [(key, value)] else []).
Proof.
  unfold setting_table, add_setting, map_t, table_t in *. cbv zeta.
  destruct (decide (tech = tech')) as [<-|Htech].
  - rewrite lookup_insert_eq. simpl.
    destruct (decide (name = name')) as [<-|Hname].
    + rewrite lookup_insert_eq. simpl.
      rewrite decide_True by done.
      by destruct (m !! tech) as [inner|]; simpl.
    + rewrite lookup_insert_ne by done.
      rewrite decide_False by (by intros [_ ?]). rewrite app_nil_r.
      by destruct (m !! tech) as [inner|]; simpl.
  - rewrite lookup_insert_ne by done.
    rewrite decide_False by (by intros [? _]). by rewrite app_nil_r.
Qed.

(** A [parse_config] keeps what it is given: after any sequence of
    [addItem], [addFileSetting] and [addContainerSetting] the items are those
    added, in the order of the calls, after the ones that were there, and the
    table of a file or of a container under a technology holds the settings
    added for it, in the order of the calls, after the ones that were there.
    Nothing is dropped, merged or reordered, and the three kinds of calls do
    not touch each other's data. *)
Theorem configure_keeps_calls calls c tech name :
  m_items (configure calls c) = m_items c ++ items_of calls ∧
  setting_table tech name (m_file_settings (configure calls c)) =
    setting_table tech name (m_file_settings c)
      ++ file_settings_of tech name calls ∧
  setting_table tech name (m_container_settings (configure calls c)) =
    setting_table tech name (m_container_settings c)
      ++ container_settings_of tech name calls.
Proof.
  revert c. induction calls as [|call calls IH]; intros c.
  - simpl. by rewrite !app_nil_r.
  - unfold configure in *. cbn [foldl].
    destruct (IH (configure_step c call)) as (-> & -> & ->).
    destruct call as [product file t|t n key value|t n key value];
      cbn [configure_step addItem addFileSetting addContainerSetting
           m_items m_file_settings m_container_settings
           items_of file_settings_of container_settings_of omap list_omap].
    + by rewrite <- app_assoc.
    + rewrite setting_table_add, <- app_assoc.
      split; [done|]. split; [|done]. f_equal.
      by destruct (decide (t = tech ∧ n = name)).
    + rewrite setting_table_add, <- app_assoc.
      split; [done|]. split; [done|]. f_equal.
      by destruct (decide (t = tech ∧ n = name)).
Qed.

Lemma list_find_snoc {A} (P : A → Prop) `{!∀ x, Decision (P x)} l x :
  snd <$> list_find P (l ++ [x]) =
    match snd <$> list_find P l with
    | Some y => Some y
    | None => if decide (P x) then Some x else None
    end.
Proof.
  induction l as [|y l IH]; simpl.
  - by destruct (decide (P x)).
  - destruct (decide (P y)); [done|].
    destruct (list_find P (l ++ [x])) as [[i z]|],
             (list_find P l) as [[j w]|]; simpl in *; done.
Qed.

Lemma findItem_eq p c :
  findItem p c = snd <$> list_find (λ item, product_name item = p) (m_items c).
Proof. unfold findItem. by destruct (list_find _ _) as [[? ?]|]. Qed.

(** [findItem] after a call on the configuration: the item found before is
    found again; when there was none, [addItem] for the product name makes
    its item the one that is found, and any other call leaves nothing to
    find. So the first item added under a product name is the one
    [findItem] returns, whatever is added later. *)
Theorem findItem_after_call call c p :
  findItem p (configure_step c call) =
    match findItem p c with
    | Some item => Some item
    | None =>
        match call with
        | add_item product file tech =>
            if decide (product = p)
            then Some (Build_PersistenceItem product file tech) else None
        | _ => None
        end
    end.
Proof.
  rewrite !findItem_eq.
  destruct call as [product file t|t n key value|t n key value];
    cbn [configure_step addItem addFileSetting addContainerSetting m_items].
  - rewrite list_find_snoc. cbn [product_name].
    by destruct (snd <$> list_find _ (m_items c)).
  - by destruct (snd <$> list_find _ (m_items c)).
  - by destruct (snd <$> list_find _ (m_items c)).
Qed.


End ParseConfigSpec.

(** ** The ROOT TTree container *)

Module RootTTreeSpec.
Import RootTTree.

Section container_spec.
Context (Get : TFile_ptr → string → option TTree_ptr).
Context (new_TTree : string → string → TTree_ptr).
Context {Storage_Association : Type}.
Context (make_association : string → Storage_Association).
Context (association_name : Storage_Association → string).
Context (association_setFile :
           option storage_file → Storage_Association → Storage_Association).
Implicit Types (c : ROOT_TTree_ContainerImp Storage_Association).

Local Abbreviation setupWrite := (setupWrite Get new_TTree association_name).
Local Abbreviation setFile := (setFile association_setFile).
Local Abbreviation after :=
  (after Get new_TTree association_name association_setFile).
Local Abbreviation after_all :=
  (after_all Get new_TTree association_name association_setFile).
Local Abbreviation destroy := (@destroy Storage_Association).

(** [setupWrite] on a container without a [TFile] throws and changes
    nothing. On a container with a [TFile] it returns, never with "no tree
    created", and leaves the container with a tree: the one it had, or else
    the tree of the container's name in the file, or else a new tree of that
    name that it attaches to the file. A second [setupWrite] then changes
    nothing, and [fill] and [commit] on the container that is set up throw
    all the same: they are not implemented. *)
Theorem setupWrite_outcome type c :
  match m_tfile c with
  | None =>
      setupWrite type c
        = (inl "ROOT_TTree_ContainerImp::setupWrite no file attached", c)
  | Some tfile =>
      let name := association_name (base c) in
      ∃ c' tree,
        setupWrite type c = (inr tt, c') ∧
        m_tree c' = Some tree ∧
        base c' = base c ∧ m_tfile c' = m_tfile c ∧
        match m_tree c, Get tfile name with
        | Some old, _ => tree = old ∧ root_calls c' = root_calls c
        | None, Some found => tree = found ∧ root_calls c' = root_calls c
        | None, None =>
            tree = new_TTree name name ∧
            root_calls c' = root_calls c ++ [TTree_SetDirectory tree tfile]
        end ∧
        (∀ type', setupWrite type' c' = (inr tt, c')) ∧
        (∀ data, fill data c'
                   = (inl "ROOT_TTree_ContainerImp::fill not implemented", c')) ∧
        commit c' = (inl "ROOT_TTree_ContainerImp::commit not implemented", c')
  end.
Proof.
  unfold RootTTree.setupWrite.
  destruct c as [b [tfile|] [old|] calls]; cbn; [| |done..].
  - eexists _, _. split; [reflexivity|]. cbn. done.
  - destruct (Get tfile (association_name b)) as [found|] eqn:Hget; cbn.
    + eexists _, _. split; [reflexivity|]. cbn. done.
    + eexists _, _. split; [reflexivity|]. cbn. done.
Qed.

(** [setFile]: with a [ROOT_TFileImp] it returns and the container holds the
    [TFile] of that file from then on, the tree it may have staying as it
    is. With a file of another kind, or a null pointer, it throws, but only
    after the base class has taken the file: the association is changed,
    while the [TFile] and the tree of the container are the old ones, so
    that the [setupWrite] that follows still works on the old [TFile]. *)
Theorem setFile_outcome file c :
  let c' := (setFile file c).2 in
  base c' = association_setFile file (base c) ∧
  m_tree c' = m_tree c ∧ root_calls c' = root_calls c ∧
  match file with
  | Some (ROOT_TFileImp tfile) =>
      setFile file c = (inr tt, c') ∧ m_tfile c' = tfile
  | _ =>
      setFile file c =
        (inl "ROOT_TTree_ContainerImp::setFile can't attach to non-ROOT file", c')
      ∧ m_tfile c' = m_tfile c
      ∧ (∀ type, is_Some (m_tfile c) →
           ∃ c'', setupWrite type c' = (inr tt, c'') ∧ m_tfile c'' = m_tfile c)
  end.
Proof.
  assert (Hlater : ∀ b type,
            is_Some (m_tfile c) →
            ∃ c'', setupWrite type
                     {| base := b; m_tfile := m_tfile c; m_tree := m_tree c;
                        root_calls := root_calls c |} = (inr tt, c'')
                   ∧ m_tfile c'' = m_tfile c).
  { intros b type [tfile Htfile]. unfold RootTTree.setupWrite.
    rewrite Htfile. cbn. destruct (m_tree c) as [old|]; cbn.
    - by eexists.
    - destruct (Get tfile (association_name b)); cbn; by eexists. }
  unfold RootTTree.setFile. destruct file as [[tfile|name]|]; cbn; [done| |].
  - do 4 (split; [done|]). split; [done|]. intros type. apply Hlater.
  - do 4 (split; [done|]). split; [done|]. intros type. apply Hlater.
Qed.

Lemma after_keeps_tree call c tree :
  m_tree c = Some tree →
  m_tree (after call c) = Some tree ∧ root_calls (after call c) = root_calls c.
Proof.
  intros Htree. destruct call as [file|type|data| |id]; cbn; [| |done..].
  - unfold RootTTree.setFile. by destruct file as [[tfile|name]|].
  - unfold RootTTree.setupWrite. destruct c as [b [tfile|] tr calls]; [|done].
    cbn in *. subst tr. done.
Qed.

(** A container keeps the tree it has: whatever is called on it afterwards,
    another file set, [setupWrite] again, the calls that throw, its tree is
    the same, it attaches no other tree to a file, and its destructor writes
    and deletes that one tree. In particular a container that is given
    another file goes on with the tree of the old one. *)
Theorem container_keeps_its_tree calls c tree :
  m_tree c = Some tree →
  m_tree (after_all calls c) = Some tree ∧
  root_calls (after_all calls c) = root_calls c ∧
  destroy (after_all calls c)
    = root_calls c ++ [TTree_Write tree; TTree_delete tree].
Proof.
  revert c. induction calls as [|call calls IH]; intros c Htree.
  - unfold RootTTree.after_all, RootTTree.destroy. cbn. by rewrite Htree.
  - destruct (after_keeps_tree call c tree Htree) as [Htree' Hcalls'].
    destruct (IH _ Htree') as (H1 & H2 & H3).
    unfold RootTTree.after_all in *. cbn [foldl].
    rewrite H1, H2, H3, Hcalls'. done.
Qed.

End container_spec.

(** The container "hits" has the tree at address 7, in the file at address
    1; a file that is no ROOT file, a [fill], a second ROOT file and a
    second [setupWrite] later, in a ROOT that would now put a new tree at
    address 8, its destructor writes and deletes the tree at address 7. *)
Lemma container_keeps_its_tree_witness :
  m_tree demo_container = Some 7%N ∧
  destroy
    (after_all (λ _ _, None) (λ _ _, 8%N) id (λ _ a, a)
       [ call_setFile (Some (other_file "hits.h5")); call_fill 0%N;
         call_setFile (Some (ROOT_TFileImp (Some 2%N))); call_setupWrite "hits" ]
       demo_container)
    = [TTree_SetDirectory 7%N 1%N; TTree_Write 7%N; TTree_delete 7%N].
Proof.
  split; [reflexivity|].
  apply (container_keeps_its_tree (λ _ _, None) (λ _ _, 8%N) id (λ _ a, a)
           _ demo_container 7%N).
  reflexivity.
Defined.

End RootTTreeSpec.

(** ** Hashing *)

Module HashingSpec.
Import Hashing.

Section hashing_spec.
Context (hash_size : N → N → N).
Context (hash_string : N → string → N).

Local Abbreviation hash_pack := (hash_pack hash_size hash_string).

Lemma hash_pack_sizes i j k ks last :
  hash_pack i j (size_arg k) ((size_arg <$> ks) ++ [last])
    = Some (hash_two hash_size hash_string
              (foldl hash_size i (j :: k :: ks)) last).
Proof.
  revert i j k. induction ks as [|k' ks IH]; intros i j k; [done|].
  cbn [fmap list_fmap app Hashing.hash_pack]. rewrite IH. done.
Qed.

(** The variadic [hash] nests to the left: with sizes only,
    [hash(i, j, k1, ..., kn)] is [hash(... hash(hash(i, j), k1) ..., kn)],
    the left fold of the two-argument [hash] over the arguments in their
    order; a string in the last place is hashed, by the overload for
    strings, onto the fold of the sizes before it; and a call with a string
    before the last place does not compile. *)
Theorem hash_nests_left i j k ks :
  hash_pack i j (size_arg k) (size_arg <$> ks)
    = Some (foldl hash_size i (j :: k :: ks)) ∧
  (∀ s, hash_pack i j (size_arg k) ((size_arg <$> ks) ++ [string_arg s])
          = Some (hash_string (foldl hash_size i (j :: k :: ks)) s)) ∧
  (∀ s, hash_pack i j (string_arg s) [] = Some (hash_string (hash_size i j) s)) ∧
  (∀ s k' rest, hash_pack i j (string_arg s) (k' :: rest) = None) ∧
  (∀ s k' rest,
     hash_pack i j (size_arg k) ((size_arg <$> ks) ++ string_arg s :: k' :: rest)
       = None).
Proof.
  split; [|split; [|split; [|split]]].
  - destruct (decide (ks = [])) as [->|Hne]; [done|].
    destruct (exists_last Hne) as (front & last & ->).
    rewrite fmap_app. cbn [fmap list_fmap]. rewrite hash_pack_sizes.
    cbn [hash_two foldl]. by rewrite foldl_app.
  - intros s. by rewrite hash_pack_sizes.
  - done.
  - done.
  - intros s k' rest. revert i j k.
    induction ks as [|k0 ks IH]; intros i j k; [done|].
    cbn [fmap list_fmap app Hashing.hash_pack]. apply IH.
Qed.

End hashing_spec.
End HashingSpec.

(** ** The toy writer and reader *)

Module ToySpec.
Import Form FormSpec Toy FormInterfaceSpec.

Section toy_spec.
Context (ROOT_TTREE ROOT_RNTUPLE : Z).
Context (track_start_x track_n_hits start_points : N → N → pointer).
Context (track_x : N → pointer).
Implicit Types (st : form_interface) (tm : gmap type_index string).

Local Abbreviation writer_main :=
  (writer_main ROOT_TTREE ROOT_RNTUPLE
     track_start_x track_n_hits start_points track_x).
Local Abbreviation writer_config := (writer_config ROOT_TTREE ROOT_RNTUPLE).
Local Abbreviation reader_main := (reader_main ROOT_TTREE).
Local Abbreviation reader_config := (reader_config ROOT_TTREE).
Local Abbreviation write_segment :=
  (write_segment track_start_x track_n_hits start_points).
Local Abbreviation write_event :=
  (write_event track_start_x track_n_hits start_points track_x).
Local Abbreviation segment_calls :=
  (segment_calls track_start_x track_n_hits start_points).
Local Abbreviation event_calls := (event_calls track_x).
Local Abbreviation writer_calls :=
  (writer_calls track_start_x track_n_hits start_points track_x).

(** The four products of the toy programs are configured. *)
Lemma writer_ready argv tm : ready (make_form_interface tm (writer_config argv)).
Proof. repeat apply Forall_cons_2; [vm_compute; eauto..|apply Forall_nil_2]. Qed.

Lemma reader_ready argv tm : ready (make_form_interface tm (reader_config argv)).
Proof. repeat apply Forall_cons_2; [vm_compute; eauto..|apply Forall_nil_2]. Qed.

Lemma ready_lookup st l :
  ready st →
  l ∈ ["trackStart"; "trackNumberHits"; "trackStartPoints"; "trackStartX"] →
  ∃ item, m_product_to_config st !! l = Some item.
Proof. unfold ready. rewrite Forall_forall. intros H Hl. exact (H l Hl). Qed.

Lemma named_lookup tm :
  named tm !! vector_float = Some "std::vector<float>" ∧
  named tm !! vector_int = Some "std::vector<int>" ∧
  named tm !! vector_TrackStart = Some "std::vector<TrackStart>".
Proof.
  unfold named. split; [|split].
  - rewrite lookup_insert_ne by done. rewrite lookup_insert_ne by done.
    by rewrite lookup_insert_eq.
  - rewrite lookup_insert_ne by done. by rewrite lookup_insert_eq.
  - by rewrite lookup_insert_eq.
Qed.

(** A loop whose every round returns and appends its calls. *)
Lemma for_each_trace {A} (body : A → action unit)
    (calls : A → list persistence_call) (l : list A) st :
  ready st →
  (∀ x st, ready st →
     ∃ st', body x st = (inr tt, st') ∧
            m_pers st' = m_pers st ++ calls x ∧ ready st') →
  ∃ st', for_each body l st = (inr tt, st') ∧
         m_pers st' = m_pers st ++ (l ≫= calls) ∧ ready st'.
Proof.
  intros Hst Hbody. revert st Hst. induction l as [|x l IH]; intros st Hst.
  - exists st. cbn. by rewrite app_nil_r.
  - destruct (Hbody x st Hst) as (st1 & Hx & Hcalls & Hst1).
    destruct (IH st1 Hst1) as (st' & Hl & Hcalls' & Hst').
    exists st'. cbn [for_each]. erewrite bind_returns by exact Hx.
    split; [exact Hl|]. split; [|done].
    rewrite Hcalls', Hcalls, <- app_assoc. done.
Qed.

(** *** The writer *)

Lemma write_segment_trace nevent nseg st :
  ready st →
  ∃ st', write_segment nevent nseg st = (inr tt, st') ∧
         m_pers st' = m_pers st ++ segment_calls nevent nseg ∧ ready st'.
Proof.
  intros Hst. destruct (ready_lookup st "trackStart" Hst) as [item Hitem];
    [set_solver|].
  unfold Toy.write_segment. cbv zeta.
  do 3 (erewrite bind_returns by reflexivity).
  erewrite write_batch_eq by exact Hitem.
  eexists; split; [reflexivity|]. cbn [m_pers m_product_to_config m_type_map].
  split; [|exact Hst]. f_equal.
  fold (named (m_type_map st)).
  destruct (named_lookup (m_type_map st)) as (Hf & Hi & Ht).
  unfold Toy.segment_calls, register_writes, type_name.
  cbn [fmap list_fmap foldl label data type id m_type_map app].
  rewrite Hf, Hi, Ht. reflexivity.
Qed.

Lemma write_event_trace nevent st :
  ready st →
  ∃ st', write_event nevent st = (inr tt, st') ∧
         m_pers st' =
           m_pers st ++
           ((N.of_nat <$> seq 0 NUMBER_SEGMENT) ≫= segment_calls nevent)
           ++ event_calls nevent ∧
         ready st'.
Proof.
  intros Hst. unfold Toy.write_event. cbv zeta.
  destruct (for_each_trace (write_segment nevent) (segment_calls nevent)
              (N.of_nat <$> seq 0 NUMBER_SEGMENT) st Hst)
    as (st1 & Hsegs & Hcalls & Hst1).
  { intros nseg st0. apply write_segment_trace. }
  erewrite bind_returns by exact Hsegs.
  erewrite bind_returns by reflexivity.
  destruct (ready_lookup st1 "trackStartX" Hst1) as [item Hitem];
    [set_solver|].
  erewrite write_eq by exact Hitem.
  eexists; split; [reflexivity|]. cbn [m_pers m_product_to_config m_type_map].
  split; [|exact Hst1]. rewrite Hcalls, <- app_assoc. do 2 f_equal.
  unfold Toy.event_calls, type_name. cbn [type m_type_map label data id].
  by rewrite lookup_insert_eq.
Qed.

Lemma writer_main_eq argv :
  ∃ st', writer_main argv = (inr tt, st') ∧
         m_pers st' = constructor_calls (writer_config argv) ++ writer_calls.
Proof.
  destruct (for_each_trace write_event
              (λ nevent, ((N.of_nat <$> seq 0 NUMBER_SEGMENT)
                            ≫= segment_calls nevent) ++ event_calls nevent)
              (N.of_nat <$> seq 0 NUMBER_EVENT)
              _ (writer_ready argv ∅))
    as (st' & Hmain & Hcalls & _).
  { intros nevent st0. apply write_event_trace. }
  exists st'. split; [exact Hmain|exact Hcalls].
Qed.


(** *** The reader *)

Lemma read_segment_trace nevent nseg st :
  ready st →
  ∃ st', read_segment nevent nseg st = (inr tt, st') ∧
         m_pers st' = m_pers st ++ segment_reads nevent nseg ∧ ready st'.
Proof.
  intros Hst.
  destruct (ready_lookup st "trackStart" Hst) as [item1 Hitem1]; [set_solver|].
  destruct (ready_lookup st "trackNumberHits" Hst) as [item2 Hitem2];
    [set_solver|].
  destruct (ready_lookup st "trackStartPoints" Hst) as [item3 Hitem3];
    [set_solver|].
  unfold read_segment. cbv zeta.
  erewrite bind_returns by reflexivity.
  erewrite bind_returns by (apply (read_eq _ _ _ item1); exact Hitem1).
  erewrite bind_returns by reflexivity.
  erewrite bind_returns by (apply (read_eq _ _ _ item2); exact Hitem2).
  erewrite bind_returns by reflexivity.
  erewrite read_eq by exact Hitem3.
  eexists; split; [reflexivity|]. cbn [m_pers m_product_to_config m_type_map].
  split; [|exact Hst]. rewrite <- !app_assoc. f_equal.
  unfold segment_reads, type_name.
  cbn [type m_type_map label data id app].
  rewrite lookup_insert_eq.
  rewrite (name_missing_present vector_float _ "std::vector<float>")
    by apply lookup_insert_eq.
  rewrite lookup_insert_eq.
  rewrite (name_missing_present vector_int _ "std::vector<int>")
    by apply lookup_insert_eq.
  rewrite lookup_insert_eq. done.
Qed.

Lemma read_event_trace nevent st :
  ready st →
  ∃ st', read_event nevent st = (inr tt, st') ∧
         m_pers st' =
           m_pers st ++
           ((N.of_nat <$> seq 0 NUMBER_SEGMENT) ≫= segment_reads nevent)
           ++ event_reads nevent ∧
         ready st'.
Proof.
  intros Hst. unfold read_event. cbv zeta.
  destruct (for_each_trace (read_segment nevent) (segment_reads nevent)
              (N.of_nat <$> seq 0 NUMBER_SEGMENT) st Hst)
    as (st1 & Hsegs & Hcalls & Hst1).
  { intros nseg st0. apply read_segment_trace. }
  erewrite bind_returns by exact Hsegs.
  erewrite bind_returns by reflexivity.
  destruct (ready_lookup st1 "trackStartX" Hst1) as [item Hitem];
    [set_solver|].
  erewrite read_eq by exact Hitem.
  eexists; split; [reflexivity|]. cbn [m_pers m_product_to_config m_type_map].
  split; [|exact Hst1]. rewrite Hcalls, <- app_assoc. do 2 f_equal.
  unfold event_reads, type_name. cbn [type m_type_map label data id].
  by rewrite lookup_insert_eq.
Qed.

Lemma reader_main_eq argv :
  ∃ st', reader_main argv = (inr tt, st') ∧
         m_pers st' = constructor_calls (reader_config argv) ++ reader_calls.
Proof.
  destruct (for_each_trace read_event
              (λ nevent, ((N.of_nat <$> seq 0 NUMBER_SEGMENT)
                            ≫= segment_reads nevent) ++ event_reads nevent)
              (N.of_nat <$> seq 0 NUMBER_EVENT)
              _ (reader_ready argv ∅))
    as (st' & Hmain & Hcalls & _).
  { intros nevent st0. apply read_event_trace. }
  exists st'. split; [exact Hmain|exact Hcalls].
Qed.


(** *** The reader against the writer *)

(** The reader asks for what the writer wrote: the products the reader
    reads are, in the same order, the products the writer registers for
    writing, each with the same creator, label and type name; and the ids
    the reader reads under are the ids the writer commits, each for the same
    creator. *)
Theorem reader_requests_what_writer_wrote argv argv' :
  ∃ stw str,
    writer_main argv = (inr tt, stw) ∧
    reader_main argv' = (inr tt, str) ∧
    registered (m_pers stw)
      = (λ r, (r.1.1.1, r.1.1.2, r.2)) <$> requested (m_pers str) ∧
    ∀ creator id,
      (creator, id) ∈ committed (m_pers stw)
      ↔ ∃ label type, (creator, label, id, type) ∈ requested (m_pers str).
Proof.
  destruct (writer_main_eq argv) as (stw & Hw & Hwcalls).
  destruct (reader_main_eq argv') as (str & Hr & Hrcalls).
  exists stw, str. split; [exact Hw|]. split; [exact Hr|].
  rewrite Hwcalls, Hrcalls. split; [vm_compute; reflexivity|].
  intros creator id.
  set (reads := requested (constructor_calls (reader_config argv')
                           ++ reader_calls)).
  assert (Hids : committed (constructor_calls (writer_config argv) ++ writer_calls)
                 = (λ r, (r.1.1.1, r.1.2))
                     <$> filter (λ r, r.1.1.2 = "trackStart"
                                      ∨ r.1.1.2 = "trackStartX") reads)
    by (vm_compute; reflexivity).
  rewrite Hids. clear Hids. split.
  - intros ([[[c l] i] t] & [= -> ->] & [_ Hin]%list_elem_of_filter)%list_elem_of_fmap.
    by exists l, t.
  - intros (l & t & Hin).
    assert (Hall : Forall (λ r, (r.1.1.1, r.1.2) ∈
                     ((λ r, (r.1.1.1, r.1.2))
                        <$> filter (λ r, r.1.1.2 = "trackStart"
                                         ∨ r.1.1.2 = "trackStartX") reads))
                   reads)
      by by_evaluation.
    rewrite Forall_forall in Hall. exact (Hall _ Hin).
Qed.

End toy_spec.
End ToySpec.
